(** * compass: the stage lifecycle (core/stage.go) and the value helpers

    A shallow embedding of [Create], [Destroy] and the helpers they call.
    Go maps are reference objects, so they live in a store; every call on a
    collaborator (release backend, dependency graph, file system, shell,
    template engine, logger) is recorded, in order, in a trace.  The
    collaborators themselves are not part of the repository sources and are
    taken as parameters ([Env]); their calls are taken to return, except
    [deps.Wait], which may park the goroutine for good.  A computation
    returns, panics (deferred calls run), exits the process through
    [log.Fatalf] (deferred calls do not run) or stays parked. *)

From stdpp Require Import gmap strings list fin_maps.

Open Scope string_scope.
Open Scope list_scope.

(** ** Data model *)

Module helm.

(** [Jobs] of the value-helper file. *)
Record Jobs := mkJobs {
  Before : list string;
  After : list string;
}.

(** [Chart]: a single stage of the deployment pipeline. *)
Record Chart := mkChart {
  Name : string;
  Repo : string;
  Version : string;
  Release : string;
  Timeout : Z;
  Namespace : string;
  Abandon : bool;
  Values : string;
  Requires : list string;
  Depends : list string;
  jobs : Jobs;
  Templates : list string;
}.

End helm.

(** [Jobs] of core/stage.go. *)
Record Jobs := mkJobs {
  Before : list string;
  After : list string;
}.

(** [Stage] embeds [helm.Chart]; the fields it declares itself shadow the
    embedded ones, so [stage.Abandon], [stage.Values], ... are the fields
    below while [stage.Release] and [stage.Namespace] come from the chart. *)
Record Stage := mkStage {
  Chart : helm.Chart;
  Abandon : bool;
  Values : string;
  Requires : list string;
  Depends : list string;
  jobs : Jobs;
  Templates : list string;
}.

Definition Release (stage : Stage) : string := helm.Release (Chart stage).
Definition Namespace (stage : Stage) : string := helm.Namespace (Chart stage).

(** A Go [error] is represented by its message; [None] is the nil error. *)
Definition error := string.

(** A [[]byte]: [None] is the nil slice. *)
Definition bytes := option string.

Definition string_of_bytes (b : bytes) : string := default "" b.

(** [append(out, more...)]: appending nothing to a nil slice leaves it nil. *)
Definition append_bytes (out : bytes) (more : string) : bytes :=
  match out with
  | Some o => Some (o +:+ more)
  | None => if decide (more = "") then None else Some more
  end.

(** ** Observable calls *)

Inductive event :=
| EvStatus (release : string)                         (* conn.ReleaseStatus *)
| EvDelete (release : string)                         (* conn.DeleteRelease *)
| EvInstall (chart : helm.Chart) (manifest : bytes)   (* conn.InstallChart *)
| EvUpgrade (chart : helm.Chart) (manifest : bytes)   (* conn.UpgradeChart *)
| EvWait (keys : list string)                         (* deps.Wait *)
| EvComplete (keys : list string)                     (* deps.Complete *)
| EvReadFile (path : string)                          (* ioutil.ReadFile *)
| EvNewK8s                                            (* kube.NewK8s *)
| EvExecute (name : string)                           (* template Execute *)
| EvExec (args env : list string)                     (* exec.Command(..).Output *)
| EvLog (msg : string)                                (* log.Printf *)
| EvFatal (msg : string)                              (* log.Fatalf *)
| EvPrint (msg : string).                             (* fmt.Println *)

Definition history := list event.

(** The collaborators.  Each answer may depend on everything that happened
    so far in the run. *)
Record Env := mkEnv {
  bridge_ReleaseStatus : history → string → string * option error;
  bridge_DeleteRelease : history → string → option error;
  bridge_InstallChart : history → helm.Chart → bytes → option error;
  bridge_UpgradeChart : history → helm.Chart → bytes → option error;
  (* does deps.Wait(keys...) ever return? *)
  deps_Wait_returns : history → list string → bool;
  ioutil_ReadFile : history → string → string + error;
  yaml_Unmarshal : string → gmap string string * option error;
  template_Parse : string → string → option error;
  template_Execute :
    history → string → string → gmap string string → string * option error;
  exec_Output : history → list string → list string → bytes * option error;
  os_Environ : history → list string;
  strings_Fields : string → list string;
  (* the order in which the n-th [range] loop of the run visits a map *)
  range_order : nat → gmap string string → list (string * string);
  range_order_perm : ∀ n m, range_order n m ≡ₚ map_to_list m;
}.

(** ** Store, outcomes and the monad *)

Definition loc := positive.

(** A value of type [map[string]string]: nil or a reference to a map object. *)
Definition vmap := option loc.

Record state := mkState {
  heap : gmap loc (gmap string string);
  trace : history;
  ranges : nat;          (* number of [range] loops over maps started *)
}.

Inductive outcome (A : Type) : Type :=
| Ret (a : A)          (* the statement or function finished *)
| Panic (e : string)   (* panicking: unwinds and runs the deferred calls *)
| Exit (code : Z)      (* os.Exit: the process is gone, nothing deferred runs *)
| Blocked.             (* parked forever *)
Arguments Ret {A} a.
Arguments Panic {A} e.
Arguments Exit {A} code.
Arguments Blocked {A}.

Definition M (A : Type) : Type := state → outcome A * state.

Definition ret {A} (a : A) : M A := λ s, (Ret a, s).

Definition bind {A B} (m : M A) (k : A → M B) : M B := λ s,
  match m s with
  | (Ret a, s') => k a s'
  | (Panic e, s') => (Panic e, s')
  | (Exit c, s') => (Exit c, s')
  | (Blocked, s') => (Blocked, s')
  end.

Global Instance M_ret : MRet M := @ret.
Global Instance M_bind : MBind M := λ A B k m, bind m k.

(** [defer d; body]: [d] runs when [body] returns or panics, not when the
    process exits or the goroutine never gets out of [body].  The result of
    [d] is dropped; a panic raised by [d] replaces the current one.  Nested
    uses give Go's last-in-first-out order. *)
Definition with_defer {A} (d : M unit) (body : M A) : M A := λ s,
  match body s with
  | (Ret a, s') =>
      match d s' with
      | (Ret _, s'') => (Ret a, s'')
      | (Panic e, s'') => (Panic e, s'')
      | (Exit c, s'') => (Exit c, s'')
      | (Blocked, s'') => (Blocked, s'')
      end
  | (Panic e, s') =>
      match d s' with
      | (Ret _, s'') => (Panic e, s'')
      | (Panic e', s'') => (Panic e', s'')
      | (Exit c, s'') => (Exit c, s'')
      | (Blocked, s'') => (Blocked, s'')
      end
  | (Exit c, s') => (Exit c, s')
  | (Blocked, s') => (Blocked, s')
  end.

Definition emit (e : event) : M unit := λ s,
  (Ret tt, mkState (heap s) (trace s ++ [e]) (ranges s)).

(** A call on a collaborator: answered from the history, then recorded. *)
Definition call {A} (answer : history → A) (e : event) : M A := λ s,
  (Ret (answer (trace s)), mkState (heap s) (trace s ++ [e]) (ranges s)).

Definition panic {A} (e : string) : M A := λ s, (Panic e, s).

Definition log_Printf (msg : string) : M unit := emit (EvLog msg).

(** [log.Fatalf] prints and calls [os.Exit(1)]. *)
Definition log_Fatalf {A} (msg : string) : M A := λ s,
  (Exit 1%Z, mkState (heap s) (trace s ++ [EvFatal msg]) (ranges s)).

Definition fmt_Println (msg : string) : M unit := emit (EvPrint msg).

(** *** Map objects *)

Definition deref (h : gmap loc (gmap string string)) (m : vmap)
  : gmap string string :=
  match m with
  | Some l => default ∅ (h !! l)
  | None => ∅
  end.

(** [make(map[string]string)] or a map literal with the given entries. *)
Definition new_map (entries : gmap string string) : M vmap := λ s,
  let l := fresh (dom (heap s)) in
  (Ret (Some l), mkState (<[l := entries]> (heap s)) (trace s) (ranges s)).

(** [m[k]] with the comma-ok form. *)
Definition map_index (m : vmap) (k : string) : M (option string) := λ s,
  (Ret (deref (heap s) m !! k), s).

(** [len(m)]. *)
Definition map_len (m : vmap) : M nat := λ s,
  (Ret (size (deref (heap s) m)), s).

(** [m[k] = v]; on a nil map this panics. *)
Definition map_store (m : vmap) (k v : string) : M unit := λ s,
  match m with
  | Some l =>
      (Ret tt,
       mkState (<[l := <[k := v]> (deref (heap s) m)]> (heap s))
               (trace s) (ranges s))
  | None => (Panic "assignment to entry in nil map", s)
  end.

(** The entries a [for k, v := range m] loop visits, in the order this loop
    happens to use. *)
Definition map_range (E : Env) (m : vmap) : M (list (string * string)) := λ s,
  (Ret (range_order E (ranges s) (deref (heap s) m)),
   mkState (heap s) (trace s) (S (ranges s))).

(** A [for _, x := range l] loop whose body has no early return. *)
Fixpoint for_each {A} (l : list A) (body : A → M unit) : M unit :=
  match l with
  | [] => ret tt
  | x :: rest => body x;; for_each rest body
  end.

(** ** Calls on the collaborators *)

Section program.

Context (E : Env).

Definition conn_ReleaseStatus (release : string) : M (string * option error) :=
  call (λ h, bridge_ReleaseStatus E h release) (EvStatus release).

Definition conn_DeleteRelease (release : string) : M (option error) :=
  call (λ h, bridge_DeleteRelease E h release) (EvDelete release).

Definition conn_InstallChart (chart : helm.Chart) (out : bytes)
  : M (option error) :=
  call (λ h, bridge_InstallChart E h chart out) (EvInstall chart out).

Definition conn_UpgradeChart (chart : helm.Chart) (out : bytes)
  : M (option error) :=
  call (λ h, bridge_UpgradeChart E h chart out) (EvUpgrade chart out).

Definition deps_Complete (keys : list string) : M unit :=
  emit (EvComplete keys).

(** [deps.Wait(keys...)] either returns or parks the goroutine for good. *)
Definition deps_Wait (keys : list string) : M unit := λ s,
  (if deps_Wait_returns E (trace s) keys then Ret tt else Blocked,
   mkState (heap s) (trace s ++ [EvWait keys]) (ranges s)).

Definition ReadFile (path : string) : M (string + error) :=
  call (λ h, ioutil_ReadFile E h path) (EvReadFile path).

(** The line feed that ends the log formats. *)
Definition newline : string :=
  String (Ascii.Ascii false true false true false false false false) "".

(** ** The value helpers *)

Definition LoadFile (vals : string) : M bytes :=
  if decide (vals = "") then mret None else
  r ← ReadFile vals;
  match r with
  | inr err =>
      log_Printf ("error reading from " +:+ vals +:+ ": " +:+ err +:+ newline);;
      mret None
  | inl data => mret (Some data)
  end.

Definition LoadVals (vals : string) (data : bytes) : M vmap :=
  if decide (vals = "") then mret None else
  data ← match data with
         | None => LoadFile vals
         | Some _ => mret data
         end;
  let '(decoded, err) := yaml_Unmarshal E (string_of_bytes data) in
  values ← new_map decoded;
  match err with
  | Some err =>
      log_Printf ("error unmarshalling from " +:+ vals +:+ ": " +:+ err
                  +:+ newline);;
      mret None
  | None => mret values
  end.

Definition MergeVals (prev next : vmap) : M unit :=
  entries ← map_range E next;
  for_each entries (λ '(key, value), map_store prev key value).

(** ** core/stage.go *)

(** [Generate]: the updated [*out] is the result. *)
Definition Generate (name : string) (data out : bytes) (values : vmap)
  : M bytes :=
  emit EvNewK8s;;
  match template_Parse E name (string_of_bytes data) with
  | Some err =>
      log_Fatalf ("failed to render " +:+ name +:+ " : " +:+ err +:+ newline)
  | None =>
      '(buf, err) ← (λ s,
          call (λ h, template_Execute E h name (string_of_bytes data)
                       (deref (heap s) values)) (EvExecute name) s);
      match err with
      | Some err =>
          log_Fatalf ("failed to render " +:+ name +:+ " : " +:+ err
                      +:+ newline)
      | None => mret (append_bytes out buf)
      end
  end.

Definition shellVars (vals : vmap) : M (list string) :=
  n ← map_len vals;
  entries ← map_range E vals;
  mret (foldl (λ envs '(key, value), envs ++ [key +:+ "=" +:+ value])
              (replicate n "") entries).

Fixpoint shellJobs (values : list string) (jobs : list string) (verbose : bool)
  : M (option error) :=
  match jobs with
  | [] => mret None
  | command :: rest =>
      log_Printf ("running job: " +:+ command +:+ newline);;
      match strings_Fields E command with
      | [] => panic "index out of range"
      | arg0 :: args =>
          '(stdout, err) ← (λ s,
              call (λ h, exec_Output E h (arg0 :: args)
                           (values ++ os_Environ E h))
                   (EvExec (arg0 :: args) (values ++ os_Environ E (trace s)))
                   s);
          (if verbose && bool_decide (stdout ≠ None)
           then fmt_Println (string_of_bytes stdout) else mret tt);;
          match err with
          | Some err => mret (Some err)
          | None => shellJobs values rest verbose
          end
      end
  end.

Fixpoint checkRequires (values : vmap) (reqs : list string)
  : M (option error) :=
  match reqs with
  | [] => mret None
  | r :: rest =>
      v ← map_index values r;
      match v with
      | None => mret (Some "requirement not met")
      | Some _ => checkRequires values rest
      end
  end.

Definition cpVals (prev : vmap) : M vmap :=
  values ← new_map ∅;
  entries ← map_range E prev;
  for_each entries (λ '(k, v), map_store values k v);;
  mret values.

Definition Destroy (stage : Stage) (key : string) (values : vmap)
    (verbose : bool) : M (option error) :=
  with_defer (deps_Complete (Depends stage)) (
    err ← checkRequires values (Requires stage);
    match err with
    | Some err => mret (Some err)
    | None =>
        deps_Wait [key];;
        log_Printf ("deleting " +:+ Release stage +:+ newline);;
        conn_DeleteRelease (Release stage)
    end).

(** The loop over [stage.Templates] in [Create]. *)
Fixpoint Create_templates (templates : list string) (out : bytes)
    (values : vmap) : M bytes :=
  match templates with
  | [] => mret out
  | temp :: rest =>
      r ← ReadFile temp;
      match r with
      | inr read => panic read
      | inl data =>
          out ← Generate temp (Some data) out values;
          Create_templates rest out values
      end
  end.

(** The end of [Create]: the status is queried again and the release is
    installed or upgraded. *)
Definition Create_release (stage : Stage) (out : bytes) : M (option error) :=
  '(status, err) ← conn_ReleaseStatus (Release stage);
  if bool_decide (status = "PENDING_INSTALL") || bool_decide (err ≠ None) then
    (if bool_decide (err = None) then
       log_Printf ("deleting release: " +:+ Release stage +:+ newline);;
       _ ← conn_DeleteRelease (Release stage);
       mret tt
     else mret tt);;
    log_Printf ("installing release: " +:+ Release stage +:+ newline);;
    err ← conn_InstallChart (Chart stage) out;
    match err with
    | Some err =>
        log_Fatalf ("failed to install " +:+ Release stage +:+ " : " +:+ err
                    +:+ newline)
    | None =>
        log_Printf ("release " +:+ Release stage +:+ " installed" +:+ newline);;
        mret None
    end
  else
    log_Printf ("upgrading release: " +:+ Release stage +:+ newline);;
    _ ← conn_UpgradeChart (Chart stage) out;
    match err with
    | Some err =>
        log_Fatalf ("failed to install " +:+ Release stage +:+ " : " +:+ err
                    +:+ newline)
    | None =>
        log_Printf ("release upgraded: " +:+ Release stage +:+ newline);;
        mret None
    end.

(** The values of the stage in [Create]: the copy of [main] and the three
    merges into it. *)
Definition Create_values (stage : Stage) (main : vmap) : M vmap :=
  values ← cpVals main;
  loaded ← LoadVals (Values stage) None;
  MergeVals values loaded;;
  namespace ← new_map {[ "namespace" := Namespace stage ]};
  MergeVals values namespace;;
  release ← new_map {[ "release" := Release stage ]};
  MergeVals values release;;
  mret values.

Definition Create (stage : Stage) (key : string) (main : vmap)
    (verbose : bool) : M (option error) :=
  with_defer (deps_Complete [key]) (
    '(_, err) ← conn_ReleaseStatus (Release stage);
    if bool_decide (err = None) && Abandon stage then
      mret (Some "chart already installed")
    else
      values ← Create_values stage main;
      err ← checkRequires values (Requires stage);
      match err with
      | Some err => mret (Some err)
      | None =>
          deps_Wait (Depends stage);;
          envs ← shellVars values;
          _ ← shellJobs envs (Before (jobs stage)) verbose;
          envs ← shellVars values;
          with_defer (_ ← shellJobs envs (After (jobs stage)) verbose;
                      mret tt) (
            out ← Create_templates (Templates stage) None values;
            (if verbose then fmt_Println (string_of_bytes out) else mret tt);;
            Create_release stage out)
      end).

(** [Extrapolate]: the values are merged in place and the same map value is
    returned. *)
Definition Extrapolate (tpl : string) (values : vmap) : M vmap :=
  if decide (tpl = "") then mret values else
  r ← ReadFile tpl;
  data ← match r with
         | inr _ => log_Fatalf ("couldn't read from " +:+ tpl +:+ newline)
         | inl data => mret data
         end;
  out ← Generate tpl (Some data) None values;
  loaded ← LoadVals tpl out;
  MergeVals values loaded;;
  mret values.

End program.

(** ** Reading runs *)

(** The events a computation added to the trace. *)
Definition emitted {A} (m : M A) (s : state) : list event :=
  drop (length (trace s)) (trace (m s).2).

(** The calls that change a release, in order. *)
Definition is_release_change (e : event) : bool :=
  match e with
  | EvDelete _ | EvInstall _ _ | EvUpgrade _ _ => true
  | _ => false
  end.

Definition is_Complete (e : event) : bool :=
  match e with EvComplete _ => true | _ => false end.

Definition is_Wait (e : event) : bool :=
  match e with EvWait _ => true | _ => false end.

Definition is_Status (e : event) : bool :=
  match e with EvStatus _ => true | _ => false end.

(** The events of everything in [Create] but the calls on the release
    backend and on [Complete]. *)
Definition is_quiet (e : event) : bool :=
  match e with
  | EvStatus _ | EvDelete _ | EvInstall _ _ | EvUpgrade _ _ | EvComplete _ =>
      false
  | _ => true
  end.

(** The commands run, as argument vectors, in order. *)
Definition exec_args (evs : list event) : list (list string) :=
  omap (λ e, match e with EvExec args _ => Some args | _ => None end) evs.

(** The files read, in order. *)
Definition read_paths (evs : list event) : list string :=
  omap (λ e, match e with EvReadFile path => Some path | _ => None end) evs.

(** A command run or a release changed. *)
Definition is_action (e : event) : bool :=
  match e with
  | EvExec _ _ | EvDelete _ | EvInstall _ _ | EvUpgrade _ _ => true
  | _ => false
  end.

Definition is_Exec (e : event) : bool :=
  match e with EvExec _ _ => true | _ => false end.

(** A command, if [e] runs one, has [entry] in its environment. *)
Definition exec_sees (entry : string) (e : event) : Prop :=
  match e with EvExec _ env => entry ∈ env | _ => True end.

(** From the state [s], the run of [m] adds only events that satisfy [P]. *)
Definition grows {A} (P : event → Prop) (m : M A) (s : state) : Prop :=
  ∃ evs, trace (m s).2 = trace s ++ evs ∧ Forall P evs.

(** Reading a file or writing a log line. *)
Definition is_io (e : event) : bool :=
  match e with EvReadFile _ | EvLog _ => true | _ => false end.

Definition no_Wait (evs : list event) : Prop :=
  Forall (λ e, is_Wait e = false) evs.

Definition no_Complete (evs : list event) : Prop :=
  Forall (λ e, is_Complete e = false) evs.

(** [checkRequires] as a test on the contents of the map. *)
Definition requires_met (m : gmap string string) (reqs : list string) : bool :=
  forallb (λ r, bool_decide (is_Some (m !! r))) reqs.

(** The effective values of a stage, in the words of the data model: a copy
    of the base values, overlaid with the stage's value file, overlaid with
    the namespace and release entries.  [loaded_values] is what the value
    file contributes when it is read at history [h]. *)
Definition loaded_values (E : Env) (h : history) (vals : string)
  : gmap string string :=
  if decide (vals = "") then ∅ else
  let data := match ioutil_ReadFile E h vals with
              | inl data => data
              | inr _ => ""
              end in
  match yaml_Unmarshal E data with
  | (decoded, None) => decoded
  | (_, Some _) => ∅
  end.

Definition effective_values (E : Env) (stage : Stage)
    (base : gmap string string) (h : history) : gmap string string :=
  {[ "release" := Release stage ]} ∪
  ({[ "namespace" := Namespace stage ]} ∪
   (loaded_values E h (Values stage) ∪ base)).

(** What stops a run that neither returns nor panics: the last thing it did
    was [log.Fatalf] (process exit) or a [deps.Wait] that never returns. *)
Definition stopped_by {A} (o : outcome A) (evs : list event) : Prop :=
  match o with
  | Exit _ => ∃ pre msg, evs = pre ++ [EvFatal msg]
  | Blocked => ∃ pre keys, evs = pre ++ [EvWait keys]
  | _ => True
  end.

(** [s'] continues [s]: the trace grew by the events [evs], which satisfy
    [P], and the map objects at the locations [D] are still what they
    were. *)
Definition extends (P : event → Prop) (D : gset loc) (evs : list event)
    (s s' : state) : Prop :=
  trace s' = trace s ++ evs ∧ Forall P evs ∧
  D ⊆ dom (heap s') ∧
  (∀ l, l ∈ D → heap s' !! l = heap s !! l).

Definition keeps {A} (P : event → Prop) (D : gset loc) (m : M A) : Prop :=
  ∀ s, D ⊆ dom (heap s) →
    ∃ evs, extends P D evs s (m s).2 ∧ stopped_by (m s).1 evs.

(** The release-changing calls that follow a status query with the given
    answer: install alone when the query failed (no release), delete then
    install when it succeeded with [PENDING_INSTALL], upgrade otherwise. *)
Definition release_calls (answer : string * option error) (stage : Stage)
    (out : bytes) : list event :=
  match answer with
  | (_, Some _) => [EvInstall (Chart stage) out]
  | (status, None) =>
      if decide (status = "PENDING_INSTALL")
      then [EvDelete (Release stage); EvInstall (Chart stage) out]
      else [EvUpgrade (Chart stage) out]
  end.

Definition quiet (evs : list event) : Prop :=
  Forall (λ e, is_quiet e = true) evs.

(** A run of [m] is quiet, or it is quiet up to one status query of the
    stage's release, after which there is no further status query and the
    release-changing calls are those the answer to that query calls for. *)
Definition decides (E : Env) (stage : Stage) {A} (m : M A) : Prop :=
  ∀ s, ∃ evs,
    trace (m s).2 = trace s ++ evs ∧
    (quiet evs ∨
     ∃ pre post out,
       evs = pre ++ EvStatus (Release stage) :: post ∧
       quiet pre ∧
       Forall (λ e, is_Status e = false) post ∧
       filter is_release_change post =
         release_calls
           (bridge_ReleaseStatus E (trace s ++ pre) (Release stage))
           stage out).

(** A map value that is nil or refers to a map object outside [D]. *)
Definition outside (D : gset loc) (m : vmap) : Prop :=
  match m with Some l => l ∉ D | None => True end.

(** ** Sample environments *)

Definition is_space (c : Ascii.ascii) : bool :=
  match Ascii.nat_of_ascii c with
  | 9 | 10 | 11 | 12 | 13 | 32 => true
  | _ => false
  end.

(** Splitting a command around ASCII white space. *)
Fixpoint fields (cur : string) (s : string) : list string :=
  match s with
  | EmptyString => if decide (cur = "") then [] else [cur]
  | String c rest =>
      if is_space c
      then (if decide (cur = "") then fields "" rest
            else cur :: fields "" rest)
      else fields (cur +:+ String c "") rest
  end.

(** A cluster described by four answers: the status of every release, the
    results of install and upgrade, and the result of every shell command.
    No file exists, waits return at once, templates render to their text. *)
Definition sample_env (status : string * option error)
    (install upgrade hook : option error) : Env :=
  {| bridge_ReleaseStatus := λ _ _, status;
     bridge_DeleteRelease := λ _ _, None;
     bridge_InstallChart := λ _ _ _, install;
     bridge_UpgradeChart := λ _ _ _, upgrade;
     deps_Wait_returns := λ _ _, true;
     ioutil_ReadFile := λ _ path, inr ("open " +:+ path +:+ ": no such file");
     yaml_Unmarshal := λ _, (∅, None);
     template_Parse := λ _ _, None;
     template_Execute := λ _ _ text _, (text, None);
     exec_Output := λ _ _ _, (Some "", hook);
     os_Environ := λ _, ["HOME=/root"];
     strings_Fields := fields "";
     range_order := λ _ m, map_to_list m;
     range_order_perm := λ _ m, reflexivity (map_to_list m) |}.

(** The same cluster with no release, where every file reads as a template
    that does not parse. *)
Definition broken_template_env : Env :=
  {| bridge_ReleaseStatus := λ _ _, ("", Some "not found");
     bridge_DeleteRelease := λ _ _, None;
     bridge_InstallChart := λ _ _ _, None;
     bridge_UpgradeChart := λ _ _ _, None;
     deps_Wait_returns := λ _ _, true;
     ioutil_ReadFile := λ _ _, inl "{{ .image";
     yaml_Unmarshal := λ _, (∅, None);
     template_Parse := λ _ _, Some "unclosed action";
     template_Execute := λ _ _ text _, (text, None);
     exec_Output := λ _ _ _, (Some "", None);
     os_Environ := λ _, ["HOME=/root"];
     strings_Fields := fields "";
     range_order := λ _ m, map_to_list m;
     range_order_perm := λ _ m, reflexivity (map_to_list m) |}.

(** A cluster where every file reads as [text], every template renders to
    [rendered] and YAML decodes as the function [decode] says. *)
Definition file_env (text rendered : string)
    (decode : string → gmap string string * option error) : Env :=
  {| bridge_ReleaseStatus := λ _ _, ("", Some "not found");
     bridge_DeleteRelease := λ _ _, None;
     bridge_InstallChart := λ _ _ _, None;
     bridge_UpgradeChart := λ _ _ _, None;
     deps_Wait_returns := λ _ _, true;
     ioutil_ReadFile := λ _ _, inl text;
     yaml_Unmarshal := decode;
     template_Parse := λ _ _, None;
     template_Execute := λ _ _ _ _, (rendered, None);
     exec_Output := λ _ _ _, (Some "", None);
     os_Environ := λ _, ["HOME=/root"];
     strings_Fields := fields "";
     range_order := λ _ m, map_to_list m;
     range_order_perm := λ _ m, reflexivity (map_to_list m) |}.

Definition sample_chart (release : string) : helm.Chart :=
  helm.mkChart "postgres" "stable" "1.0.0" release 300 "default" false ""
    [] [] (helm.mkJobs [] []) [].

(** A stage [db] with one hook before and one after the release. *)
Definition sample_stage (abandon : bool) (requires depends : list string)
  : Stage :=
  mkStage (sample_chart "db-release") abandon "" requires depends
    (mkJobs ["echo before"] ["echo after"]) [].

(** The stage [db] with one template and no hooks. *)
Definition template_stage : Stage :=
  mkStage (sample_chart "db-release") false "" [] [] (mkJobs [] [])
    ["db.yaml"].

(** A store holding the base values at location 1, and nothing else. *)
Definition sample_state (base : gmap string string) : state :=
  mkState {[ 1%positive := base ]} [] 0.

(** ** The monad, step by step *)

Lemma bind_run {A B} (m : M A) (k : A → M B) s :
  (m ≫= k) s =
  match m s with
  | (Ret a, s') => k a s'
  | (Panic e, s') => (Panic e, s')
  | (Exit c, s') => (Exit c, s')
  | (Blocked, s') => (Blocked, s')
  end.
Proof. reflexivity. Qed.

Ltac run := repeat first [rewrite bind_run | progress cbn].

Lemma emitted_app {A} (m : M A) s evs :
  trace (m s).2 = trace s ++ evs → emitted m s = evs.
Proof. unfold emitted. intros ->. apply drop_app_length. Qed.

(** ** Map iteration *)

Section maps.

Context (E : Env).

Lemma range_order_NoDup n (m : gmap string string) :
  NoDup (range_order E n m).*1.
Proof.
  rewrite (range_order_perm E n m). apply NoDup_fst_map_to_list.
Qed.

Lemma range_order_to_map n (m : gmap string string) :
  list_to_map (range_order E n m) = m.
Proof.
  rewrite <- (list_to_map_to_list m) at 2.
  apply list_to_map_proper; [apply range_order_NoDup | apply range_order_perm].
Qed.

Lemma range_order_length n (m : gmap string string) :
  length (range_order E n m) = size m.
Proof.
  rewrite (range_order_perm E n m). apply length_map_to_list.
Qed.

(** Storing a list of entries one by one, later entries overwriting
    earlier ones. *)
Lemma for_each_store l (entries : list (string * string)) s p :
  heap s !! l = Some p →
  for_each entries (λ '(k, v), map_store (Some l) k v) s =
  (Ret tt,
   mkState (<[l := foldl (λ acc kv, <[kv.1 := kv.2]> acc) p entries]> (heap s))
           (trace s) (ranges s)).
Proof.
  revert s p. induction entries as [|[k v] entries IH]; intros s p Hl.
  - cbn. rewrite insert_id by done. by destruct s.
  - cbn [for_each]. rewrite bind_run. cbn.
    rewrite Hl. cbn. erewrite IH; cbn.
    + by rewrite insert_insert_eq.
    + by rewrite lookup_insert_eq.
Qed.

Lemma foldl_insert_union (entries : list (string * string))
    (p : gmap string string) :
  NoDup entries.*1 →
  foldl (λ acc kv, <[kv.1 := kv.2]> acc) p entries = list_to_map entries ∪ p.
Proof.
  revert p. induction entries as [|[k v] entries IH]; intros p Hnd; cbn.
  - by rewrite (left_id_L ∅ (∪)).
  - apply NoDup_cons in Hnd as [Hk Hnd]. rewrite IH by done.
    rewrite <- insert_union_l. symmetry. apply insert_union_r.
    by apply not_elem_of_list_to_map_1.
Qed.

Lemma MergeVals_run l next s p :
  heap s !! l = Some p →
  MergeVals E (Some l) next s =
  (Ret tt,
   mkState (<[l := deref (heap s) next ∪ p]> (heap s)) (trace s)
           (S (ranges s))).
Proof.
  intros Hl. unfold MergeVals. rewrite bind_run. cbn.
  erewrite for_each_store by exact Hl. cbn.
  rewrite foldl_insert_union by apply range_order_NoDup.
  by rewrite range_order_to_map.
Qed.

(** Merging into a nil map panics as soon as there is something to store. *)
Lemma MergeVals_nil_prev next s :
  MergeVals E None next s =
  (if decide (deref (heap s) next = ∅) then Ret tt
   else Panic "assignment to entry in nil map",
   mkState (heap s) (trace s) (S (ranges s))).
Proof.
  unfold MergeVals. rewrite bind_run. cbn.
  pose proof (range_order_to_map (ranges s) (deref (heap s) next)) as Hm.
  destruct (range_order E (ranges s) (deref (heap s) next)) as [|[k v] l];
    cbn in *.
  - rewrite decide_True by done. done.
  - rewrite decide_False; [done|]. rewrite <- Hm. apply insert_non_empty.
Qed.

Lemma cpVals_run prev s :
  cpVals E prev s =
  (Ret (Some (fresh (dom (heap s)))),
   mkState (<[fresh (dom (heap s)) := deref (heap s) prev]> (heap s))
           (trace s) (S (ranges s))).
Proof.
  unfold cpVals. rewrite bind_run. cbn. rewrite bind_run. cbn.
  rewrite bind_run.
  set (l := fresh (dom (heap s))).
  assert (Hfresh : heap s !! l = None)
    by (apply not_elem_of_dom, is_fresh).
  erewrite for_each_store; cbn; [|by rewrite lookup_insert_eq].
  rewrite insert_insert_eq.
  rewrite foldl_insert_union by apply range_order_NoDup.
  rewrite range_order_to_map, (right_id_L ∅ (∪)).
  assert (deref (<[l:=∅]> (heap s)) prev = deref (heap s) prev) as ->;
    [|reflexivity].
  destruct prev as [l'|]; cbn; [|done].
  destruct (decide (l = l')) as [<-|Hne].
  - by rewrite lookup_insert_eq, Hfresh.
  - by rewrite lookup_insert_ne.
Qed.

Lemma checkRequires_run values reqs s :
  checkRequires values reqs s =
  (Ret (if requires_met (deref (heap s) values) reqs then None
        else Some "requirement not met"), s).
Proof.
  induction reqs as [|r reqs IH]; [reflexivity|].
  cbn [checkRequires requires_met forallb]. rewrite bind_run. cbn.
  destruct (deref (heap s) values !! r) eqn:Hr; cbn.
  - rewrite IH. reflexivity.
  - reflexivity.
Qed.

Lemma shellVars_fold (entries : list (string * string)) (acc : list string) :
  foldl (λ envs '(key, value), envs ++ [key +:+ "=" +:+ value]) acc entries =
  acc ++ ((λ kv, kv.1 +:+ "=" +:+ kv.2) <$> entries).
Proof.
  revert acc. induction entries as [|[k v] entries IH]; intros acc; cbn.
  - by rewrite app_nil_r.
  - rewrite IH. by rewrite <- app_assoc.
Qed.

Lemma shellVars_run vals s :
  shellVars E vals s =
  (Ret (replicate (size (deref (heap s) vals)) "" ++
        ((λ kv, kv.1 +:+ "=" +:+ kv.2) <$>
           range_order E (ranges s) (deref (heap s) vals))),
   mkState (heap s) (trace s) (S (ranges s))).
Proof.
  unfold shellVars. rewrite bind_run. cbn. rewrite bind_run. cbn.
  by rewrite shellVars_fold.
Qed.

End maps.

(** ** What every run preserves *)

Section keeps.

Context (E : Env) (P : event → Prop) (D : gset loc).

Lemma extends_refl s : D ⊆ dom (heap s) → extends P D [] s s.
Proof. intros HD. split; [by rewrite app_nil_r|done]. Qed.

Lemma extends_trans e1 e2 s1 s2 s3 :
  extends P D e1 s1 s2 → extends P D e2 s2 s3 → extends P D (e1 ++ e2) s1 s3.
Proof.
  intros (H1 & F1 & _ & K1) (H2 & F2 & HD & K2).
  split; [by rewrite H2, H1, app_assoc|].
  split; [by apply Forall_app|]. split; [done|].
  intros l Hl. rewrite K2, K1; done.
Qed.

Lemma extends_dom evs s s' : extends P D evs s s' → D ⊆ dom (heap s').
Proof. by intros (_ & _ & ? & _). Qed.

Lemma stopped_by_app {A} (o : outcome A) e1 e2 :
  stopped_by o e2 → stopped_by o (e1 ++ e2).
Proof.
  destruct o; cbn; try done.
  all: intros (pre & x & ->); exists (e1 ++ pre), x; by rewrite app_assoc.
Qed.

Lemma keeps_ret {A} (a : A) : keeps P D (mret a).
Proof. intros s HD. exists []. split; [by apply extends_refl|done]. Qed.

Lemma keeps_bind_post {A B} (R : A → Prop) (m : M A) (k : A → M B) :
  keeps P D m →
  (∀ s a s', D ⊆ dom (heap s) → m s = (Ret a, s') → R a) →
  (∀ a, R a → keeps P D (k a)) →
  keeps P D (m ≫= k).
Proof.
  intros Hm HR Hk s HD. rewrite bind_run.
  destruct (Hm s HD) as (e1 & Hext & Hstop). specialize (HR s).
  destruct (m s) as [[a| | |] s1]; cbn in *; try by exists e1.
  destruct (Hk a (HR a s1 HD eq_refl) s1 (extends_dom _ _ _ Hext))
    as (e2 & Hext' & Hstop').
  exists (e1 ++ e2). split; [by eapply extends_trans|].
  by apply stopped_by_app.
Qed.

Lemma keeps_bind {A B} (m : M A) (k : A → M B) :
  keeps P D m → (∀ a, keeps P D (k a)) → keeps P D (m ≫= k).
Proof.
  intros Hm Hk. apply (keeps_bind_post (λ _, True)); auto.
Qed.

Lemma keeps_with_defer {A} (d : M unit) (body : M A) :
  keeps P D body → keeps P D d → keeps P D (with_defer d body).
Proof.
  intros Hb Hd s HD. unfold with_defer.
  destruct (Hb s HD) as (e1 & Hext & Hstop).
  destruct (body s) as [[a|e| |] s1]; cbn in *; try by exists e1.
  all: destruct (Hd s1 (extends_dom _ _ _ Hext)) as (e2 & Hext' & Hstop').
  all: exists (e1 ++ e2).
  all: destruct (d s1) as [[[]|e'| |] s2]; cbn in *.
  all: split; [by eapply extends_trans|].
  all: try done.
  all: destruct Hstop' as (pre & x & ->); exists (e1 ++ pre), x.
  all: by rewrite app_assoc.
Qed.

Lemma extends_event s e :
  P e → D ⊆ dom (heap s) →
  extends P D [e] s (mkState (heap s) (trace s ++ [e]) (ranges s)).
Proof.
  intros He HD. split; [done|]. split; [by apply Forall_singleton|done].
Qed.

Lemma keeps_emit e : P e → keeps P D (emit e).
Proof. intros He s HD. exists [e]. split; [by apply extends_event|done]. Qed.

Lemma keeps_call {A} (answer : history → A) e : P e → keeps P D (call answer e).
Proof. intros He s HD. exists [e]. split; [by apply extends_event|done]. Qed.

Lemma keeps_panic {A} e : keeps P D (panic (A:=A) e).
Proof. intros s HD. exists []. split; [by apply extends_refl|done]. Qed.

Lemma keeps_log_Fatalf {A} msg :
  P (EvFatal msg) → keeps P D (log_Fatalf (A:=A) msg).
Proof.
  intros He s HD. exists [EvFatal msg]. split; [by apply extends_event|].
  cbn. by exists [], msg.
Qed.

Lemma keeps_deps_Wait keys : P (EvWait keys) → keeps P D (deps_Wait E keys).
Proof.
  intros He s HD. exists [EvWait keys]. split; [by apply extends_event|]. cbn.
  destruct (deps_Wait_returns E (trace s) keys); [done|]. by exists [], keys.
Qed.

Lemma extends_heap s h n :
  D ⊆ dom (heap s) → D ⊆ dom h →
  (∀ l, l ∈ D → h !! l = heap s !! l) →
  extends P D [] s (mkState h (trace s) n).
Proof.
  intros HD Hh Hl. split; [by rewrite app_nil_r|done].
Qed.

Lemma keeps_new_map entries : keeps P D (new_map entries).
Proof.
  intros s HD. exists []. split; [|done]. cbn.
  assert (fresh (dom (heap s)) ∉ D)
    by (intros Hin; apply (is_fresh (dom (heap s))); by apply HD).
  apply extends_heap; [done|set_solver|].
  intros l Hl. apply lookup_insert_ne. by intros <-.
Qed.

Lemma keeps_map_index m k : keeps P D (map_index m k).
Proof. intros s HD. exists []. split; [by apply extends_refl|done]. Qed.

Lemma keeps_map_len m : keeps P D (map_len m).
Proof. intros s HD. exists []. split; [by apply extends_refl|done]. Qed.

Lemma keeps_map_range m : keeps P D (map_range E m).
Proof. intros s HD. exists []. split; [by apply extends_heap|done]. Qed.

Lemma keeps_map_store m k v : outside D m → keeps P D (map_store m k v).
Proof.
  intros Hm s HD. exists []. destruct m as [l|]; cbn in *.
  - split; [|done]. apply extends_heap; [done|set_solver|].
    intros l' Hl'. apply lookup_insert_ne. by intros <-.
  - split; [by apply extends_refl|done].
Qed.

Lemma keeps_for_each {A} (l : list A) (body : A → M unit) :
  (∀ x, keeps P D (body x)) → keeps P D (for_each l body).
Proof.
  intros Hb. induction l as [|x l IH]; cbn [for_each].
  - apply keeps_ret.
  - apply keeps_bind; auto.
Qed.

Lemma keeps_MergeVals prev next :
  outside D prev → keeps P D (MergeVals E prev next).
Proof.
  intros Hp. apply keeps_bind; [apply keeps_map_range|].
  intros entries. apply keeps_for_each. intros [k v].
  by apply keeps_map_store.
Qed.

Lemma keeps_cpVals prev : keeps P D (cpVals E prev).
Proof.
  intros s HD. rewrite cpVals_run. exists []. split; [|done]. cbn.
  assert (fresh (dom (heap s)) ∉ D)
    by (intros Hin; apply (is_fresh (dom (heap s))); by apply HD).
  apply extends_heap; [done|set_solver|].
  intros l Hl. apply lookup_insert_ne. by intros <-.
Qed.

Lemma cpVals_outside prev s a s' :
  D ⊆ dom (heap s) → cpVals E prev s = (Ret a, s') → outside D a.
Proof.
  intros HD. rewrite cpVals_run. intros [= <- _]. cbn.
  intros Hin. apply (is_fresh (dom (heap s))). by apply HD.
Qed.

Lemma keeps_checkRequires values reqs : keeps P D (checkRequires values reqs).
Proof.
  induction reqs as [|r reqs IH]; cbn [checkRequires].
  - apply keeps_ret.
  - apply keeps_bind; [apply keeps_map_index|].
    intros [v|]; [apply IH|apply keeps_ret].
Qed.

Lemma keeps_shellVars vals : keeps P D (shellVars E vals).
Proof.
  apply keeps_bind; [apply keeps_map_len|]. intros n.
  apply keeps_bind; [apply keeps_map_range|]. intros entries.
  apply keeps_ret.
Qed.

End keeps.

(** The helpers of [Create] emit only quiet events (no call on the release
    backend, no [Complete]) and write no map object that existed before. *)
Create HintDb keeps.

#[export] Hint Resolve keeps_ret keeps_emit keeps_call keeps_panic
  keeps_log_Fatalf keeps_deps_Wait keeps_new_map keeps_checkRequires
  keeps_shellVars keeps_cpVals : keeps.

Ltac step :=
  first [ solve [eauto with keeps] | apply keeps_bind; [|intros ?] ].

Section keeps_helpers.

Context (E : Env) (P : event → Prop) (D : gset loc).
Hypothesis P_quiet : ∀ e, is_quiet e = true → P e.

Local Hint Extern 1 (P _) => (apply P_quiet; reflexivity) : keeps.

Lemma keeps_call_at {A} (answer : state → history → A) (e : state → event) :
  (∀ s, P (e s)) → keeps P D (λ s, call (answer s) (e s) s).
Proof.
  intros He s HD. eexists. split; [by apply extends_event|done].
Qed.

Lemma keeps_LoadFile vals : keeps P D (LoadFile E vals).
Proof.
  unfold LoadFile, ReadFile, log_Printf. case_decide; [by step|].
  step; [step|]. destruct a; repeat step.
Qed.

Lemma keeps_LoadVals vals data : keeps P D (LoadVals E vals data).
Proof.
  unfold LoadVals, log_Printf. case_decide; [by step|].
  step; [destruct data; [step|apply keeps_LoadFile]|].
  destruct (yaml_Unmarshal E (string_of_bytes a)) as [decoded [err|]];
    repeat step.
Qed.

Lemma keeps_Generate name data out values :
  keeps P D (Generate E name data out values).
Proof.
  unfold Generate. step; [step|].
  destruct (template_Parse E name (string_of_bytes data)); [step|].
  step; [apply keeps_call_at; intros; apply P_quiet; reflexivity|].
  destruct a0 as [buf [err|]]; step.
Qed.

Lemma keeps_shellJobs values jobs verbose :
  keeps P D (shellJobs E values jobs verbose).
Proof.
  induction jobs as [|command rest IH]; cbn [shellJobs]; [step|].
  unfold log_Printf, fmt_Println. step; [step|].
  destruct (strings_Fields E command) as [|arg0 args]; [step|].
  step; [apply keeps_call_at; intros; apply P_quiet; reflexivity|].
  destruct a0 as [stdout err].
  step; [destruct (verbose && bool_decide (stdout ≠ None)); step|].
  destruct err; [step|apply IH].
Qed.

Lemma keeps_Create_templates templates out values :
  keeps P D (Create_templates E templates out values).
Proof.
  revert out. induction templates as [|temp rest IH]; intros out;
    cbn [Create_templates]; [step|].
  unfold ReadFile. step; [step|].
  destruct a as [data|read]; [|step].
  step; [apply keeps_Generate|apply IH].
Qed.

Lemma keeps_Create_values stage main : keeps P D (Create_values E stage main).
Proof.
  apply (keeps_bind_post P D (outside D)); [step| |].
  { intros s a s' HD Hrun. by eapply cpVals_outside. }
  intros values Hout.
  step; [apply keeps_LoadVals|].
  step; [by apply keeps_MergeVals|].
  step; [step|]. step; [by apply keeps_MergeVals|].
  step; [step|]. step; [by apply keeps_MergeVals|].
  step.
Qed.

End keeps_helpers.

(** Everything [Create] does before its deferred [Complete] call: no map
    object that existed before is written, and no event is a [Complete]. *)
Section keeps_Create.

Context (E : Env) (P : event → Prop) (D : gset loc).
Hypothesis P_other : ∀ e, is_Complete e = false → P e.

Lemma P_quiet_of_other e : is_quiet e = true → P e.
Proof. intros He. apply P_other. by destruct e. Qed.

Local Hint Resolve P_quiet_of_other : keeps.
Local Hint Extern 1 (P _) => (apply P_other; reflexivity) : keeps.

Lemma keeps_Create_release stage out : keeps P D (Create_release E stage out).
Proof.
  unfold Create_release, conn_ReleaseStatus, conn_DeleteRelease,
    conn_InstallChart, conn_UpgradeChart, log_Printf.
  step; [step|]. destruct a as [status err].
  destruct (bool_decide (status = "PENDING_INSTALL") || bool_decide (err ≠ None)).
  - step; [destruct (bool_decide (err = None)); repeat step|].
    step; [step|]. step; [step|]. destruct a1; repeat step.
  - step; [step|]. step; [step|]. destruct err; repeat step.
Qed.

(** The body of [Create] under its first [defer]. *)
Lemma keeps_Create_body stage key main verbose :
  ∃ body, Create E stage key main verbose
          = with_defer (deps_Complete [key]) body ∧ keeps P D body.
Proof.
  eexists. split; [reflexivity|].
  unfold conn_ReleaseStatus, fmt_Println.
  step; [step|]. destruct a as [status err].
  destruct (bool_decide (err = None) && Abandon stage); [step|].
  step; [apply keeps_Create_values; auto with keeps|].
  step; [step|]. destruct a0; [step|].
  step; [step|]. step; [step|].
  step; [apply keeps_shellJobs; auto with keeps|]. step; [step|].
  apply keeps_with_defer.
  - step; [apply keeps_Create_templates; auto with keeps|].
    step; [destruct verbose; step|]. apply keeps_Create_release.
  - step; [apply keeps_shellJobs; auto with keeps|step].
Qed.

End keeps_Create.

(** ** MergeVals *)

(** Storing entries into a map value that is not nil, whatever the store
    holds at its location. *)
Lemma for_each_store_deref l (entries : list (string * string)) s :
  ∃ s',
    for_each entries (λ '(k, v), map_store (Some l) k v) s = (Ret tt, s') ∧
    deref (heap s') (Some l)
      = foldl (λ acc kv, <[kv.1 := kv.2]> acc) (deref (heap s) (Some l))
          entries.
Proof.
  revert s. induction entries as [|[k v] entries IH]; intros s.
  - by exists s.
  - cbn [for_each]. rewrite bind_run. cbn -[deref].
    match goal with |- context [for_each entries _ ?s1] =>
      destruct (IH s1) as (s' & -> & Hd) end.
    exists s'. split; [done|]. rewrite Hd. cbn. by rewrite lookup_insert_eq.
Qed.

(** C9. [MergeVals(prev, next)] returns normally for every [prev] that is
    not nil, and whenever it returns (this includes a nil [prev] with
    nothing to merge) [prev] holds every pair of [next] (the right-hand side
    wins) and, for the keys [next] does not have, what [prev] had; in
    particular [{a:1,b:2}] merged with [{b:3,c:4}] becomes
    [{a:1,b:3,c:4}]. *)
Theorem MergeVals_right_wins (E : Env) (prev next : vmap) (s : state) :
  (∀ l, prev = Some l → ∃ s', MergeVals E prev next s = (Ret tt, s')) ∧
  (∀ s', MergeVals E prev next s = (Ret tt, s') →
     (∀ k v, deref (heap s) next !! k = Some v →
             deref (heap s') prev !! k = Some v) ∧
     (∀ k, deref (heap s) next !! k = None →
           deref (heap s') prev !! k = deref (heap s) prev !! k) ∧
     (deref (heap s) prev = {[ "a" := "1"; "b" := "2" ]} →
      deref (heap s) next = {[ "b" := "3"; "c" := "4" ]} →
      deref (heap s') prev = {[ "a" := "1"; "b" := "3"; "c" := "4" ]})).
Proof.
  assert (Hrun : ∀ s', MergeVals E prev next s = (Ret tt, s') →
            deref (heap s') prev
              = deref (heap s) next ∪ deref (heap s) prev).
  { destruct prev as [l|].
    - unfold MergeVals. rewrite bind_run. cbn -[deref].
      match goal with |- context [for_each ?es _ ?s1] =>
        destruct (for_each_store_deref l es s1) as (s1' & -> & Hd) end.
      intros s' [= <-]. rewrite Hd. cbn -[deref].
      rewrite foldl_insert_union by apply range_order_NoDup.
      by rewrite range_order_to_map.
    - rewrite MergeVals_nil_prev. intros s' Hs'. case_decide as Hn; [|done].
      injection Hs' as <-. cbn -[deref]. rewrite Hn. cbn.
      by rewrite (left_id_L ∅ (∪)). }
  split.
  - intros l ->. unfold MergeVals. rewrite bind_run. cbn -[deref].
    match goal with |- context [for_each ?es _ ?s1] =>
      destruct (for_each_store_deref l es s1) as (s1' & -> & _) end.
    by eexists.
  - intros s' Hs'. rewrite (Hrun s' Hs'). split; [|split].
    + intros k v Hk. by apply lookup_union_Some_l.
    + intros k Hk. by apply lookup_union_r.
    + intros -> ->. vm_compute. reflexivity.
Qed.

Lemma MergeVals_right_wins_witness :
  ∃ s',
    MergeVals (sample_env ("", None) None None None) (Some 1%positive)
      (Some 2%positive)
      (mkState {[ 1%positive := {[ "a" := "1"; "b" := "2" ]};
                  2%positive := {[ "b" := "3"; "c" := "4" ]} ]} [] 0)
    = (Ret tt, s') ∧
    deref (heap s') (Some 1%positive)
    = {[ "a" := "1"; "b" := "3"; "c" := "4" ]}.
Proof.
  destruct (MergeVals_right_wins (sample_env ("", None) None None None)
              (Some 1%positive) (Some 2%positive)
              (mkState {[ 1%positive := {[ "a" := "1"; "b" := "2" ]};
                          2%positive := {[ "b" := "3"; "c" := "4" ]} ]} [] 0))
    as [Hret Hpost].
  destruct (Hret 1%positive eq_refl) as [s' Hs'].
  exists s'. split; [exact Hs'|].
  apply (Hpost s' Hs'); vm_compute; reflexivity.
Defined.

(** ** Shell hooks *)

Ltac find_event :=
  first [ apply list_elem_of_singleton; reflexivity
        | apply elem_of_app; right; find_event
        | apply elem_of_app; left; find_event ].

(** The trace only grows while hooks run. *)
Lemma shellJobs_trace_grows E values jobs verbose s :
  ∃ evs, trace (shellJobs E values jobs verbose s).2 = trace s ++ evs.
Proof.
  destruct (keeps_shellJobs E (λ _, True) ∅ (λ _ _, I) values jobs verbose s)
    as (evs & (Hevs & _) & _); [set_solver|]. by exists evs.
Qed.


(** ** Destroy *)

(** C6. [Destroy] checks the requirements, then waits for the stage's own
    key, and only then deletes the release; whenever it gets out (the
    requirement is unmet, or the delete succeeded or failed) the last thing
    it does is one [Complete] of all of [stage.Depends].  A wait that never
    returns is the only way not to get out. *)
Theorem Destroy_waits_then_deletes_then_completes (E : Env) (stage : Stage)
    (key : string) (values : vmap) (verbose : bool) (s : state) :
  Destroy E stage key values verbose s =
  if requires_met (deref (heap s) values) (Requires stage) then
    if deps_Wait_returns E (trace s) [key] then
      (Ret (bridge_DeleteRelease E
              (trace s ++ [EvWait [key];
                           EvLog ("deleting " +:+ Release stage +:+ newline)])
              (Release stage)),
       mkState (heap s)
         (trace s ++ [EvWait [key];
                      EvLog ("deleting " +:+ Release stage +:+ newline);
                      EvDelete (Release stage);
                      EvComplete (Depends stage)])
         (ranges s))
    else
      (Blocked, mkState (heap s) (trace s ++ [EvWait [key]]) (ranges s))
  else
    (Ret (Some "requirement not met"),
     mkState (heap s) (trace s ++ [EvComplete (Depends stage)]) (ranges s)).
Proof.
  unfold Destroy, with_defer. rewrite bind_run, checkRequires_run.
  destruct (requires_met (deref (heap s) values) (Requires stage)); [|done].
  rewrite bind_run. cbn.
  destruct (deps_Wait_returns E (trace s) [key]); [|done].
  run. by rewrite <- !app_assoc.
Qed.

(** ** Create *)

(** C2. With [abandon] set and a status query that succeeds, [Create]
    returns the error "chart already installed"; its only calls are the
    status query and the [Complete] of its own key, so the release is
    neither installed, upgraded nor deleted. *)
Theorem Create_abandon_existing (E : Env) (stage : Stage) (key : string)
    (main : vmap) (verbose : bool) (s : state) (status : string) :
  Abandon stage = true →
  bridge_ReleaseStatus E (trace s) (Release stage) = (status, None) →
  Create E stage key main verbose s =
  (Ret (Some "chart already installed"),
   mkState (heap s)
     (trace s ++ [EvStatus (Release stage); EvComplete [key]]) (ranges s)).
Proof.
  intros Hab Hst. unfold Create, with_defer. rewrite bind_run. cbn.
  rewrite Hst, Hab. cbn. by rewrite <- app_assoc.
Qed.

Lemma Create_abandon_existing_witness :
  Create (sample_env ("DEPLOYED", None) None None None)
    (sample_stage true [] []) "db" (Some 1%positive) false (sample_state ∅) =
  (Ret (Some "chart already installed"),
   mkState (heap (sample_state ∅))
     [EvStatus "db-release"; EvComplete ["db"]] 0).
Proof.
  apply (Create_abandon_existing (sample_env ("DEPLOYED", None) None None None)
           (sample_stage true [] []) "db" (Some 1%positive) false
           (sample_state ∅) "DEPLOYED"); reflexivity.
Defined.

(** The release-changing calls made by the last step of [Create], as a
    function of the answer to its status query. *)
Lemma Create_release_calls (E : Env) (stage : Stage) (out : bytes)
    (s : state) :
  ∃ post,
    trace (Create_release E stage out s).2
      = trace s ++ EvStatus (Release stage) :: post ∧
    Forall (λ e, is_Status e = false) post ∧
    filter is_release_change post =
      release_calls (bridge_ReleaseStatus E (trace s) (Release stage))
        stage out.
Proof.
  unfold Create_release, release_calls. run.
  destruct (bridge_ReleaseStatus E (trace s) (Release stage))
    as [status [err|]] eqn:Hst.
  - rewrite orb_true_r. run.
    match goal with |- context [bridge_InstallChart E ?h ?c ?o] =>
      destruct (bridge_InstallChart E h c o) end; run.
    all: rewrite <- !app_assoc; eexists; split; [reflexivity|].
    all: split; [by repeat constructor|reflexivity].
  - destruct (decide (status = "PENDING_INSTALL")) as [->|Hne].
    + rewrite bool_decide_true by done. run.
      match goal with |- context [bridge_InstallChart E ?h ?c ?o] =>
        destruct (bridge_InstallChart E h c o) end; run.
      all: rewrite <- !app_assoc; eexists; split; [reflexivity|].
      all: split; [by repeat constructor|reflexivity].
    + rewrite bool_decide_false by done. run.
      rewrite <- !app_assoc; eexists; split; [reflexivity|].
      split; [by repeat constructor|reflexivity].
Qed.

Section decides.

Context (E : Env) (stage : Stage).

Lemma quiet_no_release_change evs :
  quiet evs → filter is_release_change evs = [].
Proof.
  induction 1 as [|e evs He _ IH]; [done|].
  rewrite filter_cons, IH. by destruct e.
Qed.

Lemma quiet_no_Status evs : quiet evs → Forall (λ e, is_Status e = false) evs.
Proof. intros Hq. eapply Forall_impl; [exact Hq|]. by intros []. Qed.

Lemma keeps_quiet_run {A} (m : M A) s :
  keeps (λ e, is_quiet e = true) ∅ m →
  ∃ evs, trace (m s).2 = trace s ++ evs ∧ quiet evs.
Proof.
  intros Hm. destruct (Hm s) as (evs & (Htr & Hq & _) & _); [set_solver|].
  by exists evs.
Qed.

Lemma decides_quiet {A} (m : M A) :
  keeps (λ e, is_quiet e = true) ∅ m → decides E stage m.
Proof.
  intros Hm s. destruct (keeps_quiet_run m s Hm) as (evs & Htr & Hq).
  exists evs. auto.
Qed.

Lemma decides_bind {A B} (m : M A) (k : A → M B) :
  keeps (λ e, is_quiet e = true) ∅ m →
  (∀ a, decides E stage (k a)) →
  decides E stage (m ≫= k).
Proof.
  intros Hm Hk s. rewrite bind_run.
  destruct (keeps_quiet_run m s Hm) as (e1 & Htr & Hq).
  destruct (m s) as [[a| | |] s1]; cbn in *; try (exists e1; by auto).
  destruct (Hk a s1) as (e2 & Htr2 & Hdec).
  exists (e1 ++ e2). split; [by rewrite Htr2, Htr, app_assoc|].
  destruct Hdec as [Hq2|(pre & post & out & -> & Hpre & Hpost & Hcalls)].
  - left. by apply Forall_app.
  - right. exists (e1 ++ pre), post, out.
    split; [by rewrite app_assoc|]. split; [by apply Forall_app|].
    split; [done|]. by rewrite app_assoc, <- Htr.
Qed.

Lemma decides_with_defer {A} (d : M unit) (body : M A) :
  decides E stage body →
  keeps (λ e, is_quiet e = true) ∅ d →
  decides E stage (with_defer d body).
Proof.
  intros Hb Hd s. unfold with_defer.
  destruct (Hb s) as (e1 & Htr & Hdec).
  destruct (body s) as [[a|e| |] s1]; cbn in *; try (exists e1; by auto).
  all: destruct (keeps_quiet_run d s1 Hd) as (e2 & Htr2 & Hq2).
  all: exists (e1 ++ e2).
  all: split;
    [destruct (d s1) as [[[]|e'| |] s2]; cbn in *;
     by rewrite Htr2, Htr, app_assoc|].
  all: destruct Hdec as [Hq|(pre & post & out & -> & Hpre & Hpost & Hcalls)];
    [left; by apply Forall_app|right].
  all: exists pre, (post ++ e2), out.
  all: split; [by rewrite <- app_assoc|]. 
  all: split; [done|].
  all: split; [apply Forall_app; split; [done|by apply quiet_no_Status]|].
  all: by rewrite filter_app, (quiet_no_release_change e2), app_nil_r.
Qed.

Lemma decides_Create_release out : decides E stage (Create_release E stage out).
Proof.
  intros s. destruct (Create_release_calls E stage out s)
    as (post & Htr & Hpost & Hcalls).
  eexists. split; [exact Htr|]. right. exists [], post, out.
  split; [done|]. split; [constructor|]. split; [done|].
  by rewrite app_nil_r.
Qed.

(** What [Create] does after its first status query. *)
Lemma decides_Create_rest key main verbose :
  ∃ rest, Create E stage key main verbose
          = with_defer (deps_Complete [key])
              (conn_ReleaseStatus E (Release stage) ≫= rest) ∧
          ∀ a, decides E stage (rest a).
Proof.
  eexists. split; [reflexivity|]. intros [status err]. cbn beta iota.
  destruct (bool_decide (err = None) && Abandon stage).
  { apply decides_quiet. step. }
  apply decides_bind; [by apply keeps_Create_values|]. intros values.
  apply decides_bind; [step|]. intros [err'|]; [apply decides_quiet; step|].
  apply decides_bind; [step|]. intros _.
  apply decides_bind; [step|]. intros envs.
  apply decides_bind; [by apply keeps_shellJobs|]. intros _.
  apply decides_bind; [step|]. intros envs'.
  apply decides_with_defer.
  - apply decides_bind; [by apply keeps_Create_templates|]. intros out.
    apply decides_bind;
      [destruct verbose; unfold fmt_Println; step|]. intros _.
    apply decides_Create_release.
  - apply keeps_bind; [by apply keeps_shellJobs|]. intros _. step.
Qed.

End decides.

(** The two places of an event that occurs once on each side. *)
Lemma split_at_Status (x : event) (l1 r1 l2 r2 : list event) :
  is_Status x = true →
  Forall (λ e, is_Status e = false) l1 →
  Forall (λ e, is_Status e = false) r1 →
  l1 ++ x :: r1 = l2 ++ x :: r2 →
  l1 = l2 ∧ r1 = r2.
Proof.
  intros Hx Hl1 Hr1. revert l2.
  induction Hl1 as [|a l1 Ha Hl1 IH]; intros [|b l2] Heq; cbn in Heq.
  - by injection Heq as ->.
  - injection Heq as <- ->. apply Forall_app in Hr1 as [_ Hr1].
    apply Forall_cons in Hr1 as [Hr1 _]. congruence.
  - injection Heq as -> _. congruence.
  - injection Heq as <- Heq. destruct (IH l2 Heq) as [-> ->]. done.
Qed.



(** *** The effective values *)

(** [LoadVals(vals, nil)] returns nil or a new map object holding what the
    value file contributes; it writes no existing map and does not wait. *)
Lemma LoadVals_spec (E : Env) (vals : string) (s : state) :
  ∃ r s' evs,
    LoadVals E vals None s = (Ret r, s') ∧
    deref (heap s') r = loaded_values E (trace s) vals ∧
    heap s ⊆ heap s' ∧
    trace s' = trace s ++ evs ∧ no_Wait evs.
Proof.
  assert (Hfresh : heap s !! fresh (dom (heap s)) = None)
    by apply not_elem_of_dom, is_fresh.
  unfold LoadVals, LoadFile, loaded_values, no_Wait.
  destruct (decide (vals = "")) as [->|Hne].
  - exists None, s, []. rewrite app_nil_r. by repeat split.
  - run. destruct (ioutil_ReadFile E (trace s) vals) as [data|err]; run.
    all: match goal with |- context [yaml_Unmarshal ?E0 ?d] =>
           destruct (yaml_Unmarshal E0 d) as [decoded [e|]] end; run.
    all: eexists _, _, _; split; [reflexivity|]; cbn.
    all: rewrite <- ?app_assoc, ?lookup_insert_eq.
    all: split; [reflexivity|]; split; [by apply insert_subseteq|].
    all: split; [try reflexivity; by rewrite app_nil_r|].
    all: repeat constructor.
Qed.

(** [Create_values] returns a new map object that holds the effective
    values, built from what [main] holds and the value file as read at that
    moment; it waits for nothing. *)
Lemma Create_values_run (E : Env) (stage : Stage) (main : vmap) (s : state) :
  ∃ l s' evs,
    Create_values E stage main s = (Ret (Some l), s') ∧
    heap s' !! l
      = Some (effective_values E stage (deref (heap s) main) (trace s)) ∧
    heap s !! l = None ∧
    trace s' = trace s ++ evs ∧ no_Wait evs.
Proof.
  set (l := fresh (dom (heap s))).
  assert (Hfresh : heap s !! l = None) by apply not_elem_of_dom, is_fresh.
  unfold Create_values. rewrite bind_run, cpVals_run. fold l.
  rewrite bind_run.
  match goal with |- context [LoadVals E ?v None ?s1] =>
    destruct (LoadVals_spec E v s1)
      as (r & s2 & evs & -> & Hr & Hsub & Htr & Hevs) end.
  cbn in Hr, Hsub, Htr.
  assert (Hl2 : heap s2 !! l = Some (deref (heap s) main)).
  { eapply lookup_weaken; [|exact Hsub]. by rewrite lookup_insert_eq. }
  rewrite bind_run. erewrite MergeVals_run by exact Hl2. rewrite Hr.
  run.
  match goal with |- context [MergeVals E (Some l) (Some ?x) ?s3] =>
    set (l3 := x);
    assert (Hne3 : l3 ≠ l)
  end.
  { intros Heq.
    match goal with l3 := fresh (dom ?h) |- _ =>
      apply (is_fresh (dom h)) end.
    fold l3. rewrite Heq. rewrite dom_insert. set_solver. }
  erewrite MergeVals_run; cbn; [|by rewrite lookup_insert_ne, lookup_insert_eq].
  rewrite lookup_insert_eq. cbn. run.
  match goal with |- context [MergeVals E (Some l) (Some ?x) ?s4] =>
    set (l4 := x);
    assert (Hne4 : l4 ≠ l)
  end.
  { intros Heq.
    match goal with l4 := fresh (dom ?h) |- _ =>
      apply (is_fresh (dom h)) end.
    fold l4. rewrite Heq. rewrite !dom_insert. set_solver. }
  erewrite MergeVals_run; cbn; [|by rewrite lookup_insert_ne, lookup_insert_eq].
  rewrite lookup_insert_eq. cbn.
  eexists l, _, evs. split; [reflexivity|]. cbn.
  rewrite lookup_insert_eq. done.
Qed.

Lemma requires_met_missing (m : gmap string string) (reqs : list string) r :
  r ∈ reqs → m !! r = None → requires_met m reqs = false.
Proof.
  intros Hin Hr. apply not_true_is_false. unfold requires_met.
  rewrite forallb_forall. intros Hall.
  specialize (Hall r (proj1 (list_elem_of_In _ _) Hin)).
  apply bool_decide_eq_true in Hall. rewrite Hr in Hall. by destruct Hall.
Qed.

(** C5. When [stage.Requires] names a key that the effective values lack,
    [Create] returns an error and its run contains no [Wait] call: the
    requirement check comes before the dependency wait. *)
Theorem Create_requires_before_wait (E : Env) (stage : Stage) (key : string)
    (main : vmap) (verbose : bool) (s : state) (r : string) :
  r ∈ Requires stage →
  effective_values E stage (deref (heap s) main)
    (trace s ++ [EvStatus (Release stage)]) !! r = None →
  ∃ err s',
    Create E stage key main verbose s = (Ret (Some err), s') ∧
    no_Wait (emitted (Create E stage key main verbose) s).
Proof.
  intros Hin Hr. unfold emitted, Create, with_defer. rewrite bind_run. cbn.
  destruct (bridge_ReleaseStatus E (trace s) (Release stage)) as [status err].
  destruct (bool_decide (err = None) && Abandon stage).
  - cbn. eexists _, _. split; [reflexivity|]. cbn.
    rewrite <- app_assoc, drop_app_length. by repeat constructor.
  - rewrite bind_run.
    match goal with |- context [Create_values E stage main ?s1] =>
      destruct (Create_values_run E stage main s1)
        as (l & s2 & evs & -> & Hl & _ & Htr & Hevs) end.
    cbn in Hl, Htr. rewrite bind_run, checkRequires_run. cbn. rewrite Hl. cbn.
    rewrite (requires_met_missing _ _ r) by done. cbn.
    eexists _, _. split; [reflexivity|]. cbn.
    rewrite Htr, <- !app_assoc, drop_app_length.
    apply Forall_cons. split; [done|].
    apply Forall_app. split; [done|]. by repeat constructor.
Qed.

Lemma Create_requires_before_wait_witness :
  ∃ err s',
    Create (sample_env ("", Some "not found") None None None)
      (sample_stage false ["license"] ["db"]) "api" (Some 1%positive) false
      (sample_state {[ "image" := "api:1" ]}) = (Ret (Some err), s') ∧
    no_Wait (emitted
      (Create (sample_env ("", Some "not found") None None None)
         (sample_stage false ["license"] ["db"]) "api" (Some 1%positive) false)
      (sample_state {[ "image" := "api:1" ]})).
Proof.
  apply (Create_requires_before_wait
           (sample_env ("", Some "not found") None None None)
           (sample_stage false ["license"] ["db"]) "api" (Some 1%positive)
           false (sample_state {[ "image" := "api:1" ]}) "license").
  - apply list_elem_of_In. simpl. left. reflexivity.
  - vm_compute. reflexivity.
Defined.

(** *** Completion of the stage's own key *)

(** C1, as the code has it.  Whenever [Create] returns or panics, its last
    action is the one [Complete(key)] of the run.  The runs that make no
    [Complete] call are those that end in [log.Fatalf], which exits the
    process without running deferred calls (a template that fails to
    render, an install that fails), and those parked in [deps.Wait]. *)
Theorem Create_completes_unless_process_exits (E : Env) (stage : Stage)
    (key : string) (main : vmap) (verbose : bool) (s : state) :
  ∃ evs,
    trace (Create E stage key main verbose s).2 = trace s ++ evs ∧
    match (Create E stage key main verbose s).1 with
    | Ret _ | Panic _ =>
        ∃ pre, evs = pre ++ [EvComplete [key]] ∧ no_Complete pre
    | Exit _ => no_Complete evs ∧ ∃ pre msg, evs = pre ++ [EvFatal msg]
    | Blocked => no_Complete evs ∧ ∃ pre keys, evs = pre ++ [EvWait keys]
    end.
Proof.
  destruct (keeps_Create_body E (λ e, is_Complete e = false) ∅ (λ _ H, H)
              stage key main verbose) as (body & -> & Hbody).
  destruct (Hbody s) as (evs & (Htr & Hevs & _) & Hstop); [set_solver|].
  unfold with_defer. destruct (body s) as [[a|e|c|] s1]; cbn in *.
  - exists (evs ++ [EvComplete [key]]). rewrite Htr, app_assoc. eauto.
  - exists (evs ++ [EvComplete [key]]). rewrite Htr, app_assoc. eauto.
  - exists evs. eauto.
  - exists evs. eauto.
Qed.

(** C1 as stated fails: when the install fails, [Create] ends in
    [log.Fatalf]; the process exits with status 1 and the run contains no
    [Complete] call. *)
Lemma Create_install_failure_skips_Complete :
  let run := Create (sample_env ("", Some "not found") (Some "timed out")
                       None None)
               (sample_stage false [] []) "db" (Some 1%positive) false
               (sample_state ∅) in
  run.1 = Exit 1 ∧ filter is_Complete (trace run.2) = [].
Proof. vm_compute. split; reflexivity. Qed.

(** The same happens when a template fails to render: [Generate] ends in
    [log.Fatalf]. *)
Lemma Create_render_failure_skips_Complete :
  let run := Create broken_template_env template_stage "db" (Some 1%positive)
               false (sample_state ∅) in
  run.1 = Exit 1 ∧ filter is_Complete (trace run.2) = [].
Proof. vm_compute. split; reflexivity. Qed.

(** A template that cannot be read makes [Create] panic, and the deferred
    [Complete] runs. *)
Lemma Create_unreadable_template_completes :
  let run := Create (sample_env ("", Some "not found") None None None)
               template_stage "db" (Some 1%positive) false (sample_state ∅) in
  run.1 = Panic "open db.yaml: no such file" ∧
  filter is_Complete (trace run.2) = [EvComplete ["db"]].
Proof. vm_compute. split; reflexivity. Qed.

(** *** The base values *)

(** C8. Every map object that exists when [Create] is called, the base
    mapping [main] among them, holds the same entries when [Create] is
    over, however it ends: the merges go into the copy made by [cpVals]. *)
Theorem Create_leaves_base_values (E : Env) (stage : Stage) (key : string)
    (main : vmap) (verbose : bool) (s : state) (l : loc)
    (m : gmap string string) :
  heap s !! l = Some m →
  heap (Create E stage key main verbose s).2 !! l = Some m.
Proof.
  intros Hl.
  destruct (keeps_Create_body E (λ _, True) {[ l ]} (λ _ _, I)
              stage key main verbose) as (body & -> & Hbody).
  assert (HD : ({[ l ]} : gset loc) ⊆ dom (heap s)).
  { apply singleton_subseteq_l, elem_of_dom. by eexists. }
  destruct (Hbody s HD) as (evs & (_ & _ & _ & Hkeep) & _).
  rewrite <- Hl, <- (Hkeep l) by set_solver.
  unfold with_defer. by destruct (body s) as [[a|e|c|] s1].
Qed.

Lemma Create_leaves_base_values_witness :
  heap (Create (sample_env ("", Some "not found") None None None)
          (sample_stage false [] []) "db" (Some 1%positive) false
          (sample_state {[ "image" := "db:1" ]})).2 !! 1%positive
  = Some {[ "image" := "db:1" ]}.
Proof.
  apply (Create_leaves_base_values
           (sample_env ("", Some "not found") None None None)
           (sample_stage false [] []) "db" (Some 1%positive) false
           (sample_state {[ "image" := "db:1" ]}) 1%positive).
  vm_compute. reflexivity.
Defined.

(** *** Errors that are dropped *)

(** C3 on the code.  The before hook fails ([shellJobs] returns its error),
    and [Create] goes on all the same: it installs the release and returns
    nil. *)
Lemma Create_before_hook_failure_ignored :
  let E := sample_env ("", Some "not found") None None (Some "exit status 1") in
  let run := Create E (sample_stage false [] []) "db" (Some 1%positive) false
               (sample_state ∅) in
  (shellJobs E [] ["echo before"] false (sample_state ∅)).1
    = Ret (Some "exit status 1") ∧
  run.1 = Ret None ∧
  filter is_release_change (trace run.2)
    = [EvInstall (sample_chart "db-release") None].
Proof. vm_compute. repeat split; reflexivity. Qed.

(** C4 on the code.  The release exists, so [Create] upgrades it; the
    upgrade fails, and [Create] returns nil as if it had succeeded. *)
Lemma Create_upgrade_failure_returns_nil :
  let E := sample_env ("DEPLOYED", None) None (Some "upgrade failed") None in
  let run := Create E (sample_stage false [] []) "db" (Some 1%positive) false
               (sample_state ∅) in
  bridge_UpgradeChart E [] (sample_chart "db-release") None
    = Some "upgrade failed" ∧
  run.1 = Ret None ∧
  filter is_release_change (trace run.2)
    = [EvUpgrade (sample_chart "db-release") None].
Proof. vm_compute. repeat split; reflexivity. Qed.

(** Whatever the upgrade answers, the step that upgrades returns nil. *)
Lemma Create_release_upgrade_result_dropped (E : Env) (stage : Stage)
    (out : bytes) (s : state) (status : string) :
  bridge_ReleaseStatus E (trace s) (Release stage) = (status, None) →
  status ≠ "PENDING_INSTALL" →
  (Create_release E stage out s).1 = Ret None.
Proof.
  intros Hst Hne. unfold Create_release. run. rewrite Hst.
  rewrite bool_decide_false by done. by run.
Qed.

(** A failing install ends the process. *)
Lemma Create_release_install_failure_exits (E : Env) (stage : Stage)
    (out : bytes) (s : state) (status err : string) :
  bridge_ReleaseStatus E (trace s) (Release stage) = (status, Some err) →
  bridge_InstallChart E
    (trace s ++ [EvStatus (Release stage);
                 EvLog ("installing release: " +:+ Release stage +:+ newline)])
    (Chart stage) out ≠ None →
  (Create_release E stage out s).1 = Exit 1.
Proof.
  intros Hst Hinst. unfold Create_release. run. rewrite Hst, orb_true_r. run.
  rewrite <- app_assoc. cbn.
  destruct (bridge_InstallChart _ _ _ _); [done|]. by destruct Hinst.
Qed.

(** * Further properties of the helpers *)

(** ** Maps *)

(** Stores into one map object leave the others alone and add no event. *)
Lemma for_each_store_frame l (entries : list (string * string)) s :
  trace (for_each entries (λ '(k, v), map_store (Some l) k v) s).2 = trace s ∧
  ∀ l', l' ≠ l →
    heap (for_each entries (λ '(k, v), map_store (Some l) k v) s).2 !! l'
    = heap s !! l'.
Proof.
  revert s. induction entries as [|[k v] entries IH]; intros s; [done|].
  cbn [for_each]. rewrite bind_run. cbn -[deref].
  match goal with |- context [for_each entries _ ?s1] =>
    destruct (IH s1) as [Htr Hfr] end.
  split; [by rewrite Htr|].
  intros l' Hne. rewrite Hfr by done. cbn. by rewrite lookup_insert_ne.
Qed.

(** X1. [cpVals] returns a map object that did not exist before, holding
    exactly the entries of [prev] (none when [prev] is nil); every other map
    object, [prev] itself included, is left as it was and nothing is
    logged or called. *)
Theorem cpVals_fresh_copy (E : Env) (prev : vmap) (s : state) :
  ∃ l s',
    cpVals E prev s = (Ret (Some l), s') ∧
    heap s !! l = None ∧
    heap s' !! l = Some (deref (heap s) prev) ∧
    (∀ l', l' ≠ l → heap s' !! l' = heap s !! l') ∧
    deref (heap s') prev = deref (heap s) prev ∧
    trace s' = trace s.
Proof.
  assert (Hfresh : heap s !! fresh (dom (heap s)) = None)
    by apply not_elem_of_dom, is_fresh.
  eexists _, _. split; [apply cpVals_run|]. cbn.
  split; [done|]. split; [by rewrite lookup_insert_eq|].
  split; [by intros l' Hne; rewrite lookup_insert_ne|].
  split; [|done]. destruct prev as [l'|]; cbn; [|done].
  destruct (decide (fresh (dom (heap s)) = l')) as [<-|Hne].
  - by rewrite lookup_insert_eq, Hfresh.
  - by rewrite lookup_insert_ne.
Qed.

(** X2. [checkRequires] changes nothing and calls nothing; it returns nil
    exactly when every required key is present in the map (whatever its
    value, the empty string included), and the error "requirement not met"
    otherwise.  With no requirement it returns nil; on a nil map every
    requirement is unmet. *)
Theorem checkRequires_nil_iff_present (values : vmap) (reqs : list string)
    (s : state) :
  ∃ r,
    checkRequires values reqs s = (Ret r, s) ∧
    (r = None ↔ ∀ k, k ∈ reqs → is_Some (deref (heap s) values !! k)) ∧
    (r ≠ None → r = Some "requirement not met").
Proof.
  eexists. split; [apply checkRequires_run|].
  destruct (requires_met (deref (heap s) values) reqs) eqn:Hmet.
  - split; [|done]. split; [|done]. intros _ k Hk.
    unfold requires_met in Hmet. rewrite forallb_forall in Hmet.
    specialize (Hmet k (proj1 (list_elem_of_In _ _) Hk)).
    by apply bool_decide_eq_true in Hmet.
  - split; [|done]. split; [done|]. intros Hall. exfalso.
    apply not_true_iff_false in Hmet. apply Hmet.
    unfold requires_met. rewrite forallb_forall. intros k Hk.
    apply bool_decide_eq_true, Hall. by apply list_elem_of_In.
Qed.

(** Merging into a map value that is not nil. *)
Lemma MergeVals_deref (E : Env) (l : loc) (next : vmap) (s : state) :
  ∃ s',
    MergeVals E (Some l) next s = (Ret tt, s') ∧
    deref (heap s') (Some l)
      = deref (heap s) next ∪ deref (heap s) (Some l).
Proof.
  unfold MergeVals. rewrite bind_run. cbn -[deref].
  match goal with |- context [for_each ?es _ ?s1] =>
    destruct (for_each_store_deref l es s1) as (s1' & -> & Hd) end.
  eexists. split; [done|]. rewrite Hd. cbn -[deref].
  rewrite foldl_insert_union by apply range_order_NoDup.
  by rewrite range_order_to_map.
Qed.

(** [MergeVals] writes only the map object [prev] and makes no call. *)
Lemma MergeVals_frame (E : Env) (prev next : vmap) (s : state) :
  trace (MergeVals E prev next s).2 = trace s ∧
  ∀ l, prev ≠ Some l → heap (MergeVals E prev next s).2 !! l = heap s !! l.
Proof.
  destruct prev as [l0|].
  - unfold MergeVals. rewrite bind_run. cbn -[deref].
    match goal with |- context [for_each ?es _ ?s1] =>
      destruct (for_each_store_frame l0 es s1) as [Htr Hfr] end.
    split; [done|]. intros l Hne. rewrite Hfr; [done|]. by intros ->.
  - rewrite MergeVals_nil_prev. done.
Qed.

(** X3. [MergeVals] writes only the map object [prev]: every other map
    object holds the same entries afterwards (so [next], when it is another
    object, is only read), and no call is made. *)
Theorem MergeVals_writes_prev_only (E : Env) (prev next : vmap) (s : state)
    (l : loc) :
  prev ≠ Some l →
  heap (MergeVals E prev next s).2 !! l = heap s !! l ∧
  trace (MergeVals E prev next s).2 = trace s.
Proof.
  intros Hne. destruct (MergeVals_frame E prev next s) as [Htr Hfr]. auto.
Qed.

Lemma MergeVals_writes_prev_only_witness :
  heap (MergeVals (sample_env ("", None) None None None) (Some 1%positive)
          (Some 2%positive)
          (mkState {[ 1%positive := {[ "a" := "1" ]};
                      2%positive := {[ "b" := "3" ]} ]} [] 0)).2 !! 2%positive
  = Some {[ "b" := "3" ]}.
Proof.
  refine (eq_trans
    (proj1 (MergeVals_writes_prev_only (sample_env ("", None) None None None)
              (Some 1%positive) (Some 2%positive)
              (mkState {[ 1%positive := {[ "a" := "1" ]};
                          2%positive := {[ "b" := "3" ]} ]} [] 0)
              2%positive _)) _).
  - discriminate.
  - vm_compute. reflexivity.
Defined.

(** X4. Two merges into the same map object compose with the later one
    winning: after [MergeVals(prev, a); MergeVals(prev, b)], with [b] another
    object than [prev], a key has the value [b] gives it, else the value [a]
    gives it, else the value it had in [prev]. *)
Theorem MergeVals_later_merge_wins (E : Env) (l : loc) (a b : vmap)
    (s : state) :
  b ≠ Some l →
  ∃ s',
    (MergeVals E (Some l) a ≫= λ _, MergeVals E (Some l) b) s = (Ret tt, s') ∧
    ∀ k, deref (heap s') (Some l) !! k =
         match deref (heap s) b !! k with
         | Some v => Some v
         | None =>
             match deref (heap s) a !! k with
             | Some v => Some v
             | None => deref (heap s) (Some l) !! k
             end
         end.
Proof.
  intros Hb. rewrite bind_run.
  destruct (MergeVals_deref E l a s) as (s1 & Hs1 & Hd1).
  rewrite Hs1.
  destruct (MergeVals_deref E l b s1) as (s2 & Hs2 & Hd2).
  exists s2. split; [done|]. intros k. rewrite Hd2, Hd1.
  assert (Hbs : deref (heap s1) b = deref (heap s) b).
  { destruct b as [lb|]; [|done]. cbn.
    assert (Hlb : heap s1 !! lb = heap s !! lb).
    { destruct (MergeVals_frame E (Some l) a s) as [_ H].
      specialize (H lb). rewrite Hs1 in H. apply H. by intros [= ->]. }
    by rewrite Hlb. }
  rewrite Hbs, !lookup_union.
  destruct (deref (heap s) b !! k), (deref (heap s) a !! k),
    (deref (heap s) (Some l) !! k); done.
Qed.

Lemma MergeVals_later_merge_wins_witness :
  ∃ s',
    (MergeVals (sample_env ("", None) None None None) (Some 1%positive)
       (Some 2%positive) ≫=
     λ _, MergeVals (sample_env ("", None) None None None) (Some 1%positive)
            (Some 3%positive))
      (mkState {[ 1%positive := {[ "a" := "1"; "b" := "2" ]};
                  2%positive := {[ "b" := "3" ]};
                  3%positive := {[ "b" := "4" ]} ]} [] 0)
    = (Ret tt, s') ∧
    deref (heap s') (Some 1%positive) !! "b" = Some "4".
Proof.
  destruct (MergeVals_later_merge_wins (sample_env ("", None) None None None)
              1%positive (Some 2%positive) (Some 3%positive)
              (mkState {[ 1%positive := {[ "a" := "1"; "b" := "2" ]};
                          2%positive := {[ "b" := "3" ]};
                          3%positive := {[ "b" := "4" ]} ]} [] 0))
    as (s' & Hrun & Hk); [discriminate|].
  exists s'. split; [exact Hrun|]. rewrite Hk. vm_compute. reflexivity.
Defined.

(** X5. Merging into a nil map changes nothing and calls nothing; it
    returns when [next] has no entry (nil or empty) and panics with
    "assignment to entry in nil map" as soon as [next] has one. *)
Theorem MergeVals_into_nil (E : Env) (next : vmap) (s : state) :
  heap (MergeVals E None next s).2 = heap s ∧
  trace (MergeVals E None next s).2 = trace s ∧
  ((MergeVals E None next s).1 = Ret tt ↔ deref (heap s) next = ∅) ∧
  ((MergeVals E None next s).1 = Panic "assignment to entry in nil map"
   ↔ deref (heap s) next ≠ ∅).
Proof.
  rewrite MergeVals_nil_prev. cbn. split; [done|]. split; [done|].
  case_decide; split; split; done.
Qed.

(** ** Shell hooks *)

(** A run of [shellJobs], by induction on the commands. *)
Lemma shellJobs_run (E : Env) (values jobs : list string) (verbose : bool)
    (s : state) :
  ∃ (evs : list event) (n : nat),
    trace (shellJobs E values jobs verbose s).2 = trace s ++ evs ∧
    heap (shellJobs E values jobs verbose s).2 = heap s ∧
    (n ≤ length jobs)%nat ∧
    exec_args evs = strings_Fields E <$> take n jobs ∧
    Forall (λ e, match e with
                 | EvExec _ env => ∃ rest, env = values ++ rest
                 | _ => True
                 end) evs ∧
    match (shellJobs E values jobs verbose s).1 with
    | Ret None => n = length jobs
    | Ret (Some _) => (0 < n)%nat
    | Panic _ => ∃ c, jobs !! n = Some c ∧ strings_Fields E c = []
    | Exit _ | Blocked => False
    end.
Proof.
  revert s. induction jobs as [|command rest IH]; intros s.
  - exists [], 0. cbn. rewrite app_nil_r.
    split; [done|]. split; [done|]. split; [done|]. split; [done|].
    split; [constructor|done].
  - cbn [shellJobs]. rewrite bind_run. cbn.
    destruct (strings_Fields E command) as [|arg0 args] eqn:HF.
    + exists [EvLog ("running job: " +:+ command +:+ newline)], 0. cbn.
      split; [done|]. split; [done|]. split; [lia|]. split; [done|].
      split; [by repeat constructor|]. by exists command.
    + rewrite bind_run. cbn.
      match goal with |- context [exec_Output E ?h ?a ?e] =>
        destruct (exec_Output E h a e) as [stdout err] end.
      rewrite bind_run.
      match goal with
      | |- context [if ?b then fmt_Println _ else _] => destruct b
      end; cbn.
      all: destruct err as [err|]; cbn;
        [ eexists (_ :: _), 1; rewrite <- !app_assoc; cbn; rewrite HF;
          split; [reflexivity|]; split; [reflexivity|]; split; [lia|];
          split; [reflexivity|]; split; [|lia];
          repeat constructor; by eexists
        | ].
      all: match goal with |- context [shellJobs ?E0 ?v ?r ?vb ?s2] =>
             destruct (IH s2) as (evs & n & Htr & Hh & Hn & Hargs & Henv & Hout);
             destruct (shellJobs E0 v r vb s2) as [o s3]
           end.
      all: cbn in Htr, Hh, Hout |- *; rewrite Htr, Hh.
      all: rewrite <- !app_assoc; cbn.
      all: eexists (_ :: _), (S n); split; [reflexivity|].
      all: split; [reflexivity|]; split; [lia|].
      all: split; [unfold exec_args in *; cbn; by rewrite HF, Hargs|].
      all: split; [repeat (constructor; [by eauto|]); done|].
      all: destruct o as [[e|]|e|c|]; cbn in *; try done; lia.
Qed.



(** ** Templates *)

Lemma string_append_nil_r (s : string) : s +:+ "" = s.
Proof.
  induction s as [|a s IH]; [done|].
  change (String a s +:+ "") with (String a (s +:+ "")). by rewrite IH.
Qed.

Lemma string_append_assoc (s1 s2 s3 : string) :
  (s1 +:+ s2) +:+ s3 = s1 +:+ (s2 +:+ s3).
Proof.
  induction s1 as [|a s1 IH]; [done|].
  change ((String a s1 +:+ s2) +:+ s3) with (String a ((s1 +:+ s2) +:+ s3)).
  by rewrite IH.
Qed.

Lemma string_of_append_bytes (out : bytes) (more : string) :
  string_of_bytes (append_bytes out more) = string_of_bytes out +:+ more.
Proof.
  destruct out as [o|]; cbn; [done|]. by case_decide; subst.
Qed.

(** A run of [Generate], case by case. *)
Lemma Generate_run (E : Env) (name : string) (data out : bytes)
    (values : vmap) (s : state) :
  Generate E name data out values s =
  match template_Parse E name (string_of_bytes data) with
  | Some err =>
      (Exit 1,
       mkState (heap s)
         (trace s ++ [EvNewK8s;
                      EvFatal ("failed to render " +:+ name +:+ " : " +:+ err
                               +:+ newline)])
         (ranges s))
  | None =>
      match template_Execute E (trace s ++ [EvNewK8s]) name
              (string_of_bytes data) (deref (heap s) values) with
      | (buf, None) =>
          (Ret (append_bytes out buf),
           mkState (heap s) (trace s ++ [EvNewK8s; EvExecute name]) (ranges s))
      | (_, Some err) =>
          (Exit 1,
           mkState (heap s)
             (trace s ++ [EvNewK8s; EvExecute name;
                          EvFatal ("failed to render " +:+ name +:+ " : "
                                   +:+ err +:+ newline)])
             (ranges s))
      end
  end.
Proof.
  unfold Generate. rewrite bind_run. cbn.
  destruct (template_Parse E name (string_of_bytes data)); cbn.
  - unfold log_Fatalf. cbn. by rewrite <- app_assoc.
  - rewrite bind_run. cbn.
    destruct (template_Execute _ _ _ _ _) as [buf [err|]]; cbn;
      unfold log_Fatalf; cbn; by rewrite <- !app_assoc.
Qed.

(** X7. [Generate] either returns [out] with the rendered text appended
    (what was in [out] is kept in front) or ends the process with status 1
    after [log.Fatalf], on a template that does not parse or does not
    execute; it never panics, reads no file and writes no map. *)
Theorem Generate_appends_or_exits (E : Env) (name : string) (data out : bytes)
    (values : vmap) (s : state) :
  heap (Generate E name data out values s).2 = heap s ∧
  read_paths (emitted (Generate E name data out values) s) = [] ∧
  match (Generate E name data out values s).1 with
  | Ret out' =>
      template_Parse E name (string_of_bytes data) = None ∧
      ∃ buf,
        template_Execute E (trace s ++ [EvNewK8s]) name (string_of_bytes data)
          (deref (heap s) values) = (buf, None) ∧
        string_of_bytes out' = string_of_bytes out +:+ buf
  | Exit code =>
      code = 1%Z ∧
      ∃ pre msg,
        emitted (Generate E name data out values) s = pre ++ [EvFatal msg]
  | Panic _ | Blocked => False
  end.
Proof.
  unfold emitted. rewrite Generate_run.
  destruct (template_Parse E name (string_of_bytes data)) as [err|]; cbn.
  - rewrite drop_app_length. repeat split; try done. by eexists [_], _.
  - destruct (template_Execute _ _ _ _ _) as [buf [err|]] eqn:Hex; cbn.
    + rewrite drop_app_length. repeat split; try done. by eexists [_; _], _.
    + rewrite drop_app_length. repeat split; try done.
      exists buf. split; [done|]. apply string_of_append_bytes.
Qed.

(** A run of the template loop of [Create], by induction on the
    templates. *)
Lemma Create_templates_run (E : Env) (templates : list string) (out : bytes)
    (values : vmap) (s : state) :
  ∃ (evs : list event) (n : nat),
    trace (Create_templates E templates out values s).2 = trace s ++ evs ∧
    heap (Create_templates E templates out values s).2 = heap s ∧
    (n ≤ length templates)%nat ∧
    read_paths evs = take n templates ∧
    match (Create_templates E templates out values s).1 with
    | Ret out' =>
        n = length templates ∧
        ∃ rendered, string_of_bytes out' = string_of_bytes out +:+ rendered
    | Panic e =>
        ∃ temp h, templates !! pred n = Some temp ∧ (0 < n)%nat ∧
                  ioutil_ReadFile E h temp = inr e
    | Exit code =>
        code = 1%Z ∧ (0 < n)%nat ∧ ∃ pre msg, evs = pre ++ [EvFatal msg]
    | Blocked => False
    end.
Proof.
  revert out s. induction templates as [|temp rest IH]; intros out s.
  - exists [], 0. cbn. rewrite app_nil_r.
    split; [done|]. split; [done|]. split; [done|]. split; [done|].
    split; [done|]. exists "". by rewrite string_append_nil_r.
  - cbn [Create_templates]. rewrite bind_run. cbn.
    destruct (ioutil_ReadFile E (trace s) temp) as [data|read] eqn:Hread; cbn.
    + rewrite bind_run, Generate_run. cbn.
      destruct (template_Parse E temp data) as [err|]; cbn.
      { eexists [_; _; _], 1. rewrite <- app_assoc. cbn.
        split; [done|]. split; [done|]. split; [lia|]. split; [done|].
        split; [done|]. split; [lia|]. by eexists [_; _], _. }
      destruct (template_Execute _ _ _ _ _) as [buf [err|]]; cbn.
      { eexists [_; _; _; _], 1. rewrite <- app_assoc. cbn.
        split; [done|]. split; [done|]. split; [lia|]. split; [done|].
        split; [done|]. split; [lia|]. by eexists [_; _; _], _. }
      match goal with |- context [Create_templates E rest ?o ?v ?s2] =>
        destruct (IH o s2) as (evs & n & Htr & Hh & Hn & Hreads & Hout);
        destruct (Create_templates E rest o v s2) as [res s3]
      end.
      cbn in Htr, Hh, Hout |- *. rewrite Htr, Hh, <- !app_assoc. cbn.
      eexists (_ :: _), (S n). split; [reflexivity|]. split; [done|].
      split; [lia|]. split; [unfold read_paths in *; cbn; by rewrite Hreads|].
      destruct res as [out'|e|c|]; cbn in *; [| | |done].
      * destruct Hout as [-> [rendered Hr]]. split; [done|].
        exists (buf +:+ rendered).
        rewrite Hr, string_of_append_bytes.
        by rewrite string_append_assoc.
      * destruct Hout as (t & h & Ht & Hpos & Hrd).
        exists t, h. split; [|by split; [lia|]].
        by destruct n; [lia|].
      * destruct Hout as (-> & Hpos & pre & msg & ->).
        split; [done|]. split; [lia|].
        by eexists (_ :: _ :: _ :: pre), msg.
    + exists [EvReadFile temp], 1. cbn.
      split; [done|]. split; [done|]. split; [lia|]. split; [done|].
      exists temp, (trace s). split; [done|]. split; [lia|done].
Qed.


(** ** Value files *)

(** A run of [LoadVals], with or without data. *)
Lemma LoadVals_run (E : Env) (vals : string) (data : bytes) (s : state) :
  ∃ r s' evs,
    LoadVals E vals data s = (Ret r, s') ∧
    heap s ⊆ heap s' ∧
    outside (dom (heap s)) r ∧
    trace s' = trace s ++ evs ∧
    read_paths evs
      = (if decide (vals ≠ "" ∧ data = None) then [vals] else []) ∧
    (vals = "" → r = None ∧ s' = s) ∧
    (∀ d, vals ≠ "" → data = Some d →
       deref (heap s') r = match yaml_Unmarshal E d with
                           | (m, None) => m
                           | (_, Some _) => ∅
                           end).
Proof.
  assert (Hfresh : heap s !! fresh (dom (heap s)) = None)
    by apply not_elem_of_dom, is_fresh.
  assert (Hout : fresh (dom (heap s)) ∉ dom (heap s)) by apply is_fresh.
  unfold LoadVals, LoadFile.
  destruct (decide (vals = "")) as [->|Hne].
  - exists None, s, []. rewrite app_nil_r.
    rewrite decide_False by (by intros [? _]).
    repeat split; done.
  - destruct data as [d|].
    + rewrite decide_False by (by intros [_ ?]). run.
      destruct (yaml_Unmarshal E d) as [decoded [e|]] eqn:Hy; run.
      all: eexists _, _, _; split; [reflexivity|]; cbn.
      all: rewrite ?lookup_insert_eq.
      all: split; [by apply insert_subseteq|]; split; [done|].
      all: split; [try reflexivity; by rewrite app_nil_r|].
      all: split; [done|]; split; [done|].
      all: intros d' _ [= <-]; by rewrite Hy.
    + rewrite decide_True by done. run.
      destruct (ioutil_ReadFile E (trace s) vals) as [d|err]; run.
      all: match goal with |- context [yaml_Unmarshal ?E0 ?d0] =>
             destruct (yaml_Unmarshal E0 d0) as [decoded [e|]] end; run.
      all: eexists _, _, _; split; [reflexivity|]; cbn.
      all: rewrite <- ?app_assoc.
      all: split; [by apply insert_subseteq|]; split; [done|].
      all: split; [reflexivity|].
      all: split; [done|]; split; done.
Qed.

(** X9. [LoadVals] always returns: a file that cannot be read or decoded is
    logged, never fatal.  It reads the file (once) only when the path is not
    empty and no data is passed.  With an empty path it does nothing and
    returns nil; with data it returns a new map object holding what the
    data decodes to, or nil when decoding fails.  Existing map objects are
    left as they were. *)
Theorem LoadVals_never_fails (E : Env) (vals : string) (data : bytes)
    (s : state) :
  ∃ r s',
    LoadVals E vals data s = (Ret r, s') ∧
    heap s ⊆ heap s' ∧
    outside (dom (heap s)) r ∧
    read_paths (emitted (LoadVals E vals data) s)
      = (if decide (vals ≠ "" ∧ data = None) then [vals] else []) ∧
    (vals = "" → r = None ∧ s' = s) ∧
    (∀ d, vals ≠ "" → data = Some d →
       deref (heap s') r = match yaml_Unmarshal E d with
                           | (m, None) => m
                           | (_, Some _) => ∅
                           end).
Proof.
  destruct (LoadVals_run E vals data s)
    as (r & s' & evs & Hrun & Hsub & Hr & Htr & Hreads & Hempty & Hdata).
  exists r, s'. split; [done|]. split; [done|]. split; [done|].
  split; [|done]. rewrite <- Hreads. f_equal. apply emitted_app.
  by rewrite Hrun.
Qed.

(** ** Extrapolate *)

(** What [Extrapolate] does once the template file is read and rendered. *)
Lemma Extrapolate_tail (E : Env) (tpl : string) (out : bytes) (values : vmap)
    (s : state) :
  tpl ≠ "" →
  ∃ evs : list event,
    trace ((loaded ← LoadVals E tpl out;
            MergeVals E values loaded;; mret values) s).2 = trace s ++ evs ∧
    read_paths evs = (if decide (out = None) then [tpl] else []) ∧
    (∀ l m, values ≠ Some l → heap s !! l = Some m →
       heap ((loaded ← LoadVals E tpl out;
              MergeVals E values loaded;; mret values) s).2 !! l = Some m) ∧
    match ((loaded ← LoadVals E tpl out;
            MergeVals E values loaded;; mret values) s).1 with
    | Ret r =>
        r = values ∧
        ∃ loaded,
          deref (heap ((loaded ← LoadVals E tpl out;
                        MergeVals E values loaded;; mret values) s).2) values
          = loaded ∪ deref (heap s) values
    | Panic e => values = None ∧ e = "assignment to entry in nil map"
    | Exit _ | Blocked => False
    end.
Proof.
  intros Hne.
  destruct (LoadVals_run E tpl out s)
    as (r & s1 & evs & Hrun & Hsub & _ & Htr & Hreads & _ & _).
  exists evs. rewrite bind_run, Hrun, bind_run.
  destruct (MergeVals_frame E values r s1) as [Htr2 Hfr].
  assert (Hreads' : read_paths evs = if decide (out = None) then [tpl] else []).
  { rewrite Hreads. destruct (decide (out = None)) as [->|Ho].
    - by rewrite decide_True.
    - rewrite decide_False; [done|]. by intros [_ ?]. }
  destruct values as [l|].
  - destruct (MergeVals_deref E l r s1) as (s2 & Hs2 & Hd).
    rewrite Hs2 in Htr2, Hfr |- *. cbn -[deref] in *.
    split; [by rewrite Htr2, Htr|]. split; [done|].
    split.
    { intros l' m Hl' Hm. rewrite Hfr by done.
      by eapply lookup_weaken. }
    split; [done|].
    destruct (heap s !! l) as [m|] eqn:Hl.
    + exists (deref (heap s1) r). rewrite Hd. f_equal. cbn.
      by rewrite (lookup_weaken _ _ _ _ Hl Hsub), Hl.
    + exists (deref (heap s2) (Some l)). cbn. rewrite Hl. cbn.
      by rewrite (right_id_L ∅ (∪)).
  - rewrite MergeVals_nil_prev in Htr2, Hfr |- *. cbn -[deref] in *.
    destruct (decide (deref (heap s1) r = ∅)); cbn -[deref].
    + split; [done|]. split; [done|].
      split; [by intros l' m _ Hm; eapply lookup_weaken|].
      split; [done|]. exists ∅. by rewrite (left_id_L ∅ (∪)).
    + split; [done|]. split; [done|].
      split; [by intros l' m _ Hm; eapply lookup_weaken|]. done.
Qed.


(** X11. After reading and rendering the template, [Extrapolate] decodes
    the rendered text; but when the template renders to nothing, [out] is
    still nil and [LoadVals] reads the file a second time (and decodes the
    template source itself). *)
Theorem Extrapolate_reads_again_on_empty_render (E : Env) (tpl : string)
    (values : vmap) (s : state) (data buf : string) :
  tpl ≠ "" →
  ioutil_ReadFile E (trace s) tpl = inl data →
  template_Parse E tpl data = None →
  template_Execute E (trace s ++ [EvReadFile tpl; EvNewK8s]) tpl data
    (deref (heap s) values) = (buf, None) →
  read_paths (emitted (Extrapolate E tpl values) s)
  = if decide (buf = "") then [tpl; tpl] else [tpl].
Proof.
  intros Hne Hread Hparse Hexec. unfold emitted, Extrapolate.
  rewrite decide_False by done.
  rewrite bind_run. cbn -[Generate LoadVals MergeVals deref].
  rewrite Hread, bind_run. cbn -[Generate LoadVals MergeVals deref].
  rewrite bind_run, Generate_run. cbn. rewrite Hparse. cbn.
  rewrite <- app_assoc. cbn. rewrite Hexec. cbn.
  match goal with |- context [(LoadVals E tpl ?o ≫= _) ?s2] =>
    destruct (Extrapolate_tail E tpl o values s2 Hne)
      as (evs & Htr & Hreads & _ & _)
  end.
  cbn in Htr. rewrite Htr, <- !app_assoc, drop_app_length. cbn.
  unfold read_paths in *. cbn. rewrite Hreads.
  destruct (decide (buf = "")) as [->|Hb]; [done|].
  cbn. by rewrite decide_False by done.
Qed.

Lemma Extrapolate_reads_again_on_empty_render_witness :
  read_paths
    (emitted (Extrapolate (file_env "# no values yet" "" (λ _, (∅, None)))
                "values.yaml" (Some 1%positive))
       (sample_state {[ "image" := "db:1" ]}))
  = ["values.yaml"; "values.yaml"].
Proof.
  apply (Extrapolate_reads_again_on_empty_render
           (file_env "# no values yet" "" (λ _, (∅, None)))
           "values.yaml" (Some 1%positive)
           (sample_state {[ "image" := "db:1" ]}) "# no values yet" "");
    [discriminate|reflexivity|reflexivity|reflexivity].
Defined.

(** ** Create, further *)

(** X12. The values [Create] works with are a new map object, whatever
    happens to the value file (unreadable or undecodable, it is logged and
    skipped).  Precedence is fixed: [release] and [namespace] always come
    from the stage, even when the base values or the value file define
    them; any other key comes from the value file if it has it, else from
    the base values. *)
Theorem Create_values_precedence (E : Env) (stage : Stage) (main : vmap)
    (s : state) :
  ∃ l s' m,
    Create_values E stage main s = (Ret (Some l), s') ∧
    heap s !! l = None ∧
    heap s' !! l = Some m ∧
    m !! "release" = Some (Release stage) ∧
    m !! "namespace" = Some (Namespace stage) ∧
    ∀ k, k ≠ "release" → k ≠ "namespace" →
      m !! k = match loaded_values E (trace s) (Values stage) !! k with
               | Some v => Some v
               | None => deref (heap s) main !! k
               end.
Proof.
  destruct (Create_values_run E stage main s)
    as (l & s' & evs & Hrun & Hl & Hfresh & _).
  eexists l, s', _. split; [done|]. split; [done|]. split; [exact Hl|].
  unfold effective_values. split; [|split].
  - apply lookup_union_Some_l. by rewrite lookup_singleton_eq.
  - rewrite lookup_union_r by (by rewrite lookup_singleton_ne).
    apply lookup_union_Some_l. by rewrite lookup_singleton_eq.
  - intros k Hr Hn.
    rewrite lookup_union_r by (by rewrite lookup_singleton_ne).
    rewrite lookup_union_r by (by rewrite lookup_singleton_ne).
    rewrite lookup_union.
    by destruct (loaded_values E (trace s) (Values stage) !! k),
      (deref (heap s) main !! k).
Qed.

(** The value helpers only read files and write log lines. *)
Section keeps_io.

Context (E : Env) (P : event → Prop) (D : gset loc).
Hypothesis P_io : ∀ e, is_io e = true → P e.

Local Hint Extern 1 (P _) => (apply P_io; reflexivity) : keeps.

Lemma keeps_io_LoadFile vals : keeps P D (LoadFile E vals).
Proof.
  unfold LoadFile, ReadFile, log_Printf. case_decide; [by step|].
  step; [step|]. destruct a; repeat step.
Qed.

Lemma keeps_io_LoadVals vals data : keeps P D (LoadVals E vals data).
Proof.
  unfold LoadVals, log_Printf. case_decide; [by step|].
  step; [destruct data; [step|apply keeps_io_LoadFile]|].
  destruct (yaml_Unmarshal E (string_of_bytes a)) as [decoded [err|]];
    repeat step.
Qed.

Lemma keeps_io_Create_values stage main :
  keeps P D (Create_values E stage main).
Proof.
  apply (keeps_bind_post P D (outside D)); [step| |].
  { intros s a s' HD Hrun. by eapply cpVals_outside. }
  intros values Hout.
  step; [apply keeps_io_LoadVals|].
  step; [by apply keeps_MergeVals|].
  step; [step|]. step; [by apply keeps_MergeVals|].
  step; [step|]. step; [by apply keeps_MergeVals|].
  step.
Qed.

End keeps_io.

(** [Create] up to its [Wait], and what follows it. *)
Lemma Create_after_wait (E : Env) (stage : Stage) (key : string) (main : vmap)
    (verbose : bool) :
  ∃ rest : vmap → unit → M (option error),
    Create E stage key main verbose =
    with_defer (deps_Complete [key]) (
      '(_, err) ← conn_ReleaseStatus E (Release stage);
      if bool_decide (err = None) && Abandon stage then
        mret (Some "chart already installed")
      else
        values ← Create_values E stage main;
        err ← checkRequires values (Requires stage);
        match err with
        | Some err => mret (Some err)
        | None => deps_Wait E (Depends stage) ≫= rest values
        end) ∧
    ∀ values u, keeps (λ _, True) ∅ (rest values u).
Proof.
  eexists. split; [reflexivity|]. intros values u. cbn beta.
  assert (HP : ∀ e, is_quiet e = true → (λ _ : event, True) e) by done.
  assert (HP' : ∀ e, is_Complete e = false → (λ _ : event, True) e) by done.
  step; [step|]. step; [by apply keeps_shellJobs|]. step; [step|].
  apply keeps_with_defer.
  - step; [by apply keeps_Create_templates|].
    step; [destruct verbose; unfold fmt_Println; step|].
    by apply keeps_Create_release.
  - step; [by apply keeps_shellJobs|step].
Qed.

Lemma io_no_action (e : event) : is_io e = true → is_action e = false.
Proof. by destruct e. Qed.

(** Where an action can be in a run whose beginning has none. *)
Lemma action_after_prefix (A B pre post : list event) (e : event) :
  Forall (λ x, is_action x = false) A →
  is_action e = true →
  A ++ B = pre ++ e :: post →
  ∃ B1, pre = A ++ B1.
Proof.
  intros HA He. revert pre.
  induction HA as [|a A Ha HA IH]; intros pre Heq; [by exists pre|].
  destruct pre as [|p pre]; cbn in Heq.
  - injection Heq as -> _. congruence.
  - injection Heq as <- Heq. destruct (IH pre Heq) as [B1 ->]. by exists B1.
Qed.

Lemma no_action_in (evs pre post : list event) (e : event) :
  Forall (λ x, is_action x = false) evs →
  is_action e = true →
  evs = pre ++ e :: post → False.
Proof.
  intros Hall He ->. apply Forall_app in Hall as [_ Hall].
  apply Forall_cons in Hall as [? _]. congruence.
Qed.

(** X13. [Create] runs no command and changes no release before its
    [deps.Wait(stage.Depends...)] call: every hook command, delete, install
    and upgrade in a run comes after that call.  In particular a run that
    never gets to wait, or stays parked there, has done none of these. *)
Theorem Create_acts_only_after_wait (E : Env) (stage : Stage) (key : string)
    (main : vmap) (verbose : bool) (s : state) (pre post : list event)
    (e : event) :
  emitted (Create E stage key main verbose) s = pre ++ e :: post →
  is_action e = true →
  EvWait (Depends stage) ∈ pre.
Proof.
  destruct (Create_after_wait E stage key main verbose) as (rest & -> & Hrest).
  intros Hem He. revert Hem. unfold emitted, with_defer.
  rewrite bind_run. cbn -[Create_values].
  destruct (bridge_ReleaseStatus E (trace s) (Release stage)) as [status err].
  destruct (bool_decide (err = None) && Abandon stage); cbn -[Create_values].
  { rewrite <- app_assoc, drop_app_length. intros Hem. exfalso.
    eapply no_action_in; [|exact He|exact Hem]. by repeat constructor. }
  rewrite bind_run.
  match goal with |- context [Create_values E stage main ?s1] =>
    destruct (keeps_io_Create_values E (λ x, is_action x = false) ∅
                io_no_action stage main s1)
      as (evs & (Htr & Hio & _) & _); [set_solver|];
    destruct (Create_values_run E stage main s1)
      as (l & s2 & _ & Hrun & _)
  end.
  rewrite Hrun in Htr |- *. cbn in Htr.
  rewrite bind_run, checkRequires_run.
  destruct (requires_met _ _); cbn.
  2:{ rewrite Htr, <- !app_assoc, drop_app_length. intros Hem. exfalso.
      eapply no_action_in; [|exact He|exact Hem]. cbn.
      constructor; [done|]. apply Forall_app. split; [done|].
      by repeat constructor. }
  rewrite bind_run. cbn.
  destruct (deps_Wait_returns E (trace s2) (Depends stage)); cbn.
  2:{ rewrite Htr, <- !app_assoc, drop_app_length. intros Hem. exfalso.
      eapply no_action_in; [|exact He|exact Hem]. cbn.
      constructor; [done|]. apply Forall_app. split; [done|].
      by repeat constructor. }
  match goal with |- context [rest ?v ?u ?s3] =>
    destruct (Hrest v u s3) as (evr & (Htr3 & _) & _); [set_solver|];
    destruct (rest v u s3) as [res s4]
  end.
  cbn in Htr3.
  assert (Hfinal : ∃ wrap,
            drop (length (trace s))
              (trace (match res with
                      | Ret a =>
                          (Ret a, mkState (heap s4)
                             (trace s4 ++ [EvComplete [key]]) (ranges s4))
                      | Panic e0 =>
                          (Panic e0, mkState (heap s4)
                             (trace s4 ++ [EvComplete [key]]) (ranges s4))
                      | Exit c => (Exit c, s4)
                      | Blocked => (Blocked, s4)
                      end).2)
            = (EvStatus (Release stage) :: evs ++ [EvWait (Depends stage)])
              ++ wrap).
  { destruct res; cbn; rewrite Htr3, Htr, <- !app_assoc; cbn;
      rewrite <- ?app_assoc; rewrite drop_app_length; cbn;
      eexists; rewrite <- ?app_assoc; reflexivity. }
  destruct Hfinal as [wrap Hfinal].
  intros Hem.
  assert (Hem' : (EvStatus (Release stage) :: evs ++ [EvWait (Depends stage)])
                 ++ wrap = pre ++ e :: post).
  { rewrite <- Hfinal, <- Hem. by destruct res. }
  assert (HA : Forall (λ x, is_action x = false)
                 (EvStatus (Release stage) :: evs ++ [EvWait (Depends stage)])).
  { constructor; [done|]. apply Forall_app. split; [done|].
    by repeat constructor. }
  destruct (action_after_prefix _ _ _ _ _ HA He Hem') as [B1 ->].
  cbn. apply elem_of_cons. right. rewrite <- app_assoc.
  apply elem_of_app. right. apply elem_of_app. left.
  by apply list_elem_of_singleton.
Qed.

Lemma Create_acts_only_after_wait_witness :
  EvWait [] ∈
    [EvStatus "db-release"; EvWait [];
     EvLog ("running job: echo before" +:+ newline)].
Proof.
  apply (Create_acts_only_after_wait
           (sample_env ("", Some "not found") None None None)
           (sample_stage false [] []) "db" (Some 1%positive) false
           (sample_state ∅)
           [EvStatus "db-release"; EvWait [];
            EvLog ("running job: echo before" +:+ newline)]
           [EvStatus "db-release";
            EvLog ("installing release: db-release" +:+ newline);
            EvInstall (sample_chart "db-release") None;
            EvLog ("release db-release installed" +:+ newline);
            EvLog ("running job: echo after" +:+ newline);
            EvExec ["echo"; "after"]
              [""; ""; "namespace=default"; "release=db-release";
               "HOME=/root"];
            EvComplete ["db"]]
           (EvExec ["echo"; "before"]
              [""; ""; "namespace=default"; "release=db-release";
               "HOME=/root"])).
  - vm_compute. reflexivity.
  - reflexivity.
Defined.

(** Rendering the templates and changing the release run no command. *)
Section keeps_no_exec.

Context (E : Env) (P : event → Prop) (D : gset loc).
Hypothesis P_no_exec : ∀ e, is_Exec e = false → P e.

Local Hint Extern 1 (P _) => (apply P_no_exec; reflexivity) : keeps.

Lemma keeps_ne_Generate name data out values :
  keeps P D (Generate E name data out values).
Proof.
  unfold Generate. step; [step|].
  destruct (template_Parse E name (string_of_bytes data)); [step|].
  step; [apply keeps_call_at; intros; apply P_no_exec; reflexivity|].
  destruct a0 as [buf [err|]]; step.
Qed.

Lemma keeps_ne_Create_templates templates out values :
  keeps P D (Create_templates E templates out values).
Proof.
  revert out. induction templates as [|temp rest IH]; intros out;
    cbn [Create_templates]; [step|].
  unfold ReadFile. step; [step|].
  destruct a as [data|read]; [|step].
  step; [apply keeps_ne_Generate|apply IH].
Qed.

Lemma keeps_ne_Create_release stage out :
  keeps P D (Create_release E stage out).
Proof.
  unfold Create_release, conn_ReleaseStatus, conn_DeleteRelease,
    conn_InstallChart, conn_UpgradeChart, log_Printf.
  step; [step|]. destruct a as [status err].
  destruct (bool_decide (status = "PENDING_INSTALL") || bool_decide (err ≠ None)).
  - step; [destruct (bool_decide (err = None)); repeat step|].
    step; [step|]. step; [step|]. destruct a1; repeat step.
  - step; [step|]. step; [step|]. destruct err; repeat step.
Qed.

End keeps_no_exec.

(** [Create] with its hooks in view. *)
Lemma Create_hooks_shape (E : Env) (stage : Stage) (key : string) (main : vmap)
    (verbose : bool) :
  ∃ tail : vmap → M (option error),
    Create E stage key main verbose =
    with_defer (deps_Complete [key]) (
      '(_, err) ← conn_ReleaseStatus E (Release stage);
      if bool_decide (err = None) && Abandon stage then
        mret (Some "chart already installed")
      else
        values ← Create_values E stage main;
        err ← checkRequires values (Requires stage);
        match err with
        | Some err => mret (Some err)
        | None =>
            deps_Wait E (Depends stage);;
            envs ← shellVars E values;
            _ ← shellJobs E envs (Before (jobs stage)) verbose;
            envs ← shellVars E values;
            with_defer (_ ← shellJobs E envs (After (jobs stage)) verbose;
                        mret tt) (tail values)
        end) ∧
    ∀ values P, (∀ e, is_Exec e = false → P e) → keeps P ∅ (tail values).
Proof.
  eexists. split; [reflexivity|]. intros values P HP. cbn beta.
  step; [by apply keeps_ne_Create_templates|].
  step; [destruct verbose; unfold fmt_Println;
         [apply keeps_emit; by apply HP|step]|].
  by apply keeps_ne_Create_release.
Qed.

(** Every entry of the map is in the list [shellVars] builds. *)
Lemma shellVars_has_entry (E : Env) (n : nat) (m : gmap string string)
    (k v : string) :
  m !! k = Some v →
  k +:+ "=" +:+ v
  ∈ replicate (size m) "" ++
    ((λ kv, kv.1 +:+ "=" +:+ kv.2) <$> range_order E n m).
Proof.
  intros Hk. apply elem_of_app. right.
  apply (list_elem_of_fmap_2 (λ kv, kv.1 +:+ "=" +:+ kv.2) _ (k, v)).
  rewrite (range_order_perm E n m). by apply elem_of_map_to_list.
Qed.

(** The commands [shellJobs] runs see every entry of [values]. *)
Lemma shellJobs_sees (E : Env) (values jobs : list string) (verbose : bool)
    (s : state) (entry : string) :
  entry ∈ values →
  ∃ evs,
    trace (shellJobs E values jobs verbose s).2 = trace s ++ evs ∧
    heap (shellJobs E values jobs verbose s).2 = heap s ∧
    Forall (exec_sees entry) evs ∧
    match (shellJobs E values jobs verbose s).1 with
    | Exit _ | Blocked => False
    | _ => True
    end.
Proof.
  intros Hin.
  destruct (shellJobs_run E values jobs verbose s)
    as (evs & n & Htr & Hh & _ & _ & Henv & Hout).
  exists evs. split; [done|]. split; [done|]. split.
  - eapply Forall_impl; [exact Henv|]. intros [] He; cbn in *; try done.
    destruct He as [rest ->]. apply elem_of_app. by left.
  - by destruct (shellJobs E values jobs verbose s).1 as [[?|]|?|?|].
Qed.

Lemma io_exec_sees (entry : string) (e : event) :
  is_io e = true → exec_sees entry e.
Proof. by destruct e. Qed.

Lemma no_exec_sees (entry : string) (e : event) :
  is_Exec e = false → exec_sees entry e.
Proof. by destruct e. Qed.

Section grows.

Context {A B : Type} (P : event → Prop).

Lemma grows_bind (m : M A) (k : A → M B) s :
  grows P m s →
  (∀ a s1, m s = (Ret a, s1) → grows P (k a) s1) →
  grows P (m ≫= k) s.
Proof.
  intros (e1 & Htr & H1) Hk. unfold grows. rewrite bind_run.
  destruct (m s) as [[a| | |] s1]; cbn in *; try by exists e1.
  destruct (Hk a s1 eq_refl) as (e2 & Htr2 & H2).
  exists (e1 ++ e2). split; [by rewrite Htr2, Htr, app_assoc|].
  by apply Forall_app.
Qed.

Lemma grows_with_defer (d : M unit) (body : M A) s :
  grows P body s → (∀ s1, grows P d s1) → grows P (with_defer d body) s.
Proof.
  intros (e1 & Htr & H1) Hd. unfold grows, with_defer.
  destruct (body s) as [[a|e| |] s1]; cbn in *; try by exists e1.
  all: destruct (Hd s1) as (e2 & Htr2 & H2).
  all: exists (e1 ++ e2).
  all: split; [|by apply Forall_app].
  all: destruct (d s1) as [[[]|e'| |] s2]; cbn in *.
  all: by rewrite Htr2, Htr, app_assoc.
Qed.

Lemma grows_of_keeps (m : M A) s : keeps P ∅ m → grows P m s.
Proof.
  intros Hm. destruct (Hm s) as (evs & (Htr & Hall & _) & _); [set_solver|].
  by exists evs.
Qed.

End grows.


